(** * now-cli: the [now remove] command and the typed errors it reports

    A shallow embedding of [main] and [readConfirmation] of the remove
    command (src/unnamed/part_000) and of the error classes of
    src/util/errors-ts.ts, with the properties of the removal workflow
    proved over them. *)

From Stdlib Require Import ZArith Ascii String List Bool Lia.
From stdpp Require Import base option list strings pretty gmap fin_maps.

Local Open Scope string_scope.
Local Open Scope Z_scope.

(** ** JavaScript strings

    A string is the sequence of the bytes of its UTF-8 encoding, as a
    [String.string]: the chunk of standard input is read as the bytes that
    [toString] decodes, and the white space that [trim] and [parseInt]
    skip is recognised by its encoding. *)

Module Js.

(** The double quote character of the template literals. *)
Definition dquote : string := String "034"%char EmptyString.

(** The template literal that puts [id] between double quotes. *)
Definition quoted (s : string) : string := dquote ++ s ++ dquote.

(** The line feed of the template literal on line 229. *)
Definition nl : string := String "010"%char EmptyString.

(** [Array.prototype.join] *)
Definition join (sep : string) (l : list string) : string := String.concat sep l.

(** The string of the bytes [l]. *)
Definition bytes (l : list nat) : string :=
  string_of_list_ascii (map ascii_of_nat l).

(** The white space and the line terminators that [String.prototype.trim]
    removes and that [parseInt] skips, each by its UTF-8 encoding: TAB, LF,
    VT, FF, CR, SPACE, U+00A0, U+1680, U+2000 to U+200A, U+2028, U+2029,
    U+202F, U+205F, U+3000 and U+FEFF. *)
Definition white_space : list string :=
  (map (fun n => bytes [n]) [9; 10; 11; 12; 13; 32]
   ++ [bytes [194; 160]; bytes [225; 154; 128]]
   ++ map (fun n => bytes [226; 128; n]) (seq 128 11)
   ++ [bytes [226; 128; 168]; bytes [226; 128; 169]; bytes [226; 128; 175];
       bytes [226; 129; 159]; bytes [227; 128; 128]; bytes [239; 187; 191]])%nat%list.

(** [s] without its prefix [t], when it starts with [t]. *)
Fixpoint strip_prefix (t s : string) : option string :=
  match t with
  | EmptyString => Some s
  | String a t' =>
      match s with
      | String b s' => if Ascii.eqb a b then strip_prefix t' s' else None
      | EmptyString => None
      end
  end.

(** [s] without the sequence of [ts] that it starts with, if any. *)
Fixpoint strip_first (ts : list string) (s : string) : option string :=
  match ts with
  | [] => None
  | t :: ts' =>
      match strip_prefix t s with
      | Some r => Some r
      | None => strip_first ts' s
      end
  end.

(** Removes leading white space, at most [n] times. *)
Fixpoint trim_start_from (n : nat) (s : string) : string :=
  match n with
  | O => s
  | S n' =>
      match strip_first white_space s with
      | Some r => trim_start_from n' r
      | None => s
      end
  end.

(** [String.prototype.trimStart]: the leading white space is removed. *)
Definition trim_start (s : string) : string :=
  trim_start_from (String.length s) s.

(** [String.prototype.trimEnd]: a character is dropped when nothing but
    white space follows from it on. *)
Fixpoint trim_end (s : string) : string :=
  match s with
  | EmptyString => EmptyString
  | String c s' =>
      match trim_start s with
      | EmptyString => EmptyString
      | _ => String c (trim_end s')
      end
  end.

(** [String.prototype.trim] *)
Definition trim (s : string) : string := trim_end (trim_start s).

Definition lower_char (c : ascii) : ascii :=
  let n := nat_of_ascii c in
  if ((65 <=? n) && (n <=? 90))%nat then ascii_of_nat (n + 32) else c.

(** [String.prototype.toLowerCase], on the letters A to Z; the bytes of
    other characters are left as they are. No other character has y, e or
    s as its lower case, so that the comparisons of [main] with y and yes
    are those of the code. *)
Fixpoint toLowerCase (s : string) : string :=
  match s with
  | String c s' => String (lower_char c) (toLowerCase s')
  | EmptyString => EmptyString
  end.

End Js.

(** ** Data model *)

(** An alias record as [getAliases] returns it; the command reads its
    [alias] field only. *)
Record Alias := { alias : string }.

(** A deployment of [now.list]. [aliases] is not part of the fetch: it is
    [None] (undefined) until the safety filter assigns it. *)
Record Deployment := {
  uid : string;
  name : string;
  url : string;
  created : Z;
  aliases : option (list Alias)
}.

(** [match.aliases = a] *)
Definition set_aliases (m : Deployment) (a : option (list Alias)) : Deployment :=
  {| uid := uid m; name := name m; url := url m; created := created m;
     aliases := a |}.

(** ** Identifier resolution (part_000, line 132) *)

Section Resolver.

(** [normalizeURL] of ../util/url, which is not among the sources. *)
Variable normalizeURL : string -> string.

(** [d.uid === id || d.name === id || d.url === normalizeURL(id)] *)
Definition matches_id (d : Deployment) (id : string) : bool :=
  String.eqb (uid d) id || String.eqb (name d) id
  || String.eqb (url d) (normalizeURL id).

(** [deployments.filter(d => ids.some(id => ...))] *)
Definition resolve (deployments : list Deployment) (ids : list string)
  : list Deployment :=
  List.filter (fun d => existsb (matches_id d) ids) deployments.

End Resolver.

Module UrlSpec.

(** Modelled from the spec: the scheme that [normalizeURL] strips, taken
    to be https:// or http://. *)
Definition strip_scheme (s : string) : string :=
  if String.prefix "https://" s then String.substring 8 (String.length s - 8) s
  else if String.prefix "http://" s then String.substring 7 (String.length s - 7) s
  else s.

(** Modelled from the spec: the trailing slash that [normalizeURL]
    strips. *)
Fixpoint strip_trailing_slash (s : string) : string :=
  match s with
  | String c s' =>
      match s' with
      | EmptyString => if Ascii.eqb c "/"%char then EmptyString else s
      | _ => String c (strip_trailing_slash s')
      end
  | EmptyString => EmptyString
  end.

(** Modelled from the spec: [normalizeURL] (../util/url is missing from the
    sources) must strip scheme and trailing slash, so that
    https://foo.com/ and foo.com compare equal. *)
Definition normalizeURL (s : string) : string :=
  strip_trailing_slash (strip_scheme s).

End UrlSpec.

(** ** JavaScript values, thrown errors and promises *)

(** The values an error object holds in its fields. [VNum n] is the
    finite Number whose value is the integer [n]; [VRecord] is a flat
    object of strings, the [meta] payload of the typed errors; [VStack] is
    the stack trace that the [Error] constructor captures, a string that
    the engine chooses. *)
Inductive jsval :=
| VUndefined
| VStr (s : string)
| VNum (n : Z)
| VNaN
| VRecord (fields : list (string * string))
| VNegZero
| VInfinity
| VNegInfinity
| VStack.

(** A JavaScript object by its named data fields: the map gives, for a
    name, the value that reading the field of that name gives, held by the
    object or inherited from its class. Thrown errors are such objects. *)
Abbreviation JsObject := (gmap string jsval).

(** [o.field], [undefined] when the field is absent. *)
Definition field (o : JsObject) (k : string) : jsval :=
  default VUndefined (o !! k).

(** [o.code === c] for a string literal [c]. *)
Definition has_code (o : JsObject) (c : string) : bool :=
  match o !! "code" with
  | Some (VStr s) => String.eqb s c
  | _ => false
  end.

(** The engine's TypeError, thrown on a property access on [undefined]. *)
Definition TypeError : JsObject := {[ "name" := VStr "TypeError" ]}.

(** A request that has been issued: the promise it returned, recorded by
    the instant at which it settles and by how: fulfilled with a value
    ([inl]) or rejected with a reason ([inr]). *)
Record Settled (A : Type) := {
  settled_at : nat;
  outcome : A + JsObject
}.
Arguments settled_at {A} _.
Arguments outcome {A} _.

Section PromiseAll.

Context {A : Type}.

(** The values of the fulfilled promises, in index order. *)
Fixpoint fulfilments (ps : list (Settled A)) : list A :=
  match ps with
  | [] => []
  | p :: ps' =>
      match outcome p with
      | inl v => v :: fulfilments ps'
      | inr _ => fulfilments ps'
      end
  end.

(** The rejection that happens first: the least instant, and the lower
    index among rejections of one instant. *)
Fixpoint first_rejection (ps : list (Settled A)) : option (nat * JsObject) :=
  match ps with
  | [] => None
  | p :: ps' =>
      match outcome p, first_rejection ps' with
      | inl _, r => r
      | inr e, None => Some (settled_at p, e)
      | inr e, Some (t, e') =>
          if (settled_at p <=? t)%nat then Some (settled_at p, e) else Some (t, e')
      end
  end.

(** [Promise.all]: fulfilled with the array of all values once every
    promise is fulfilled, rejected with the reason of the first promise
    that rejects. *)
Definition promise_all (ps : list (Settled A)) : list A + JsObject :=
  match first_rejection ps with
  | Some (_, e) => inr e
  | None => inl (fulfilments ps)
  end.

End PromiseAll.

(** ** Effects of the command *)

(** What a client is built from and what [getScope] is called with. *)
Record Conn := {
  apiUrl : string;
  token : string;
  debug : bool;
  currentTeam : option string
}.

(** Everything the command does to its collaborators, in program order. *)
Inductive Event :=
| OutputError (msg : jsval)
| OutputLog (msg : string)
| OutputPrint (msg : string)
| OutputWarn (msg : string)
| OutputSuccess (msg : string)
| ConsoleLog (msg : string)
| WaitStart (msg : string)
| WaitCancel
| CallGetScope (c : Conn)
| CallList (now : Conn)
| CallGetAliases (now : Conn) (id : string)
| CallRemove (now : Conn) (id : string) (hard : bool)
| CallClose (now : Conn)
| StdinResume
| StdinPause.

(** How a block of statements stops before its end: an exception
    propagates, the process exits, a [return] statement leaves the
    enclosing function, or it awaits a promise that never settles. *)
Inductive Abort :=
| Thrown (e : JsObject)
| ProcessExit (code : Z)
| Return (v : Z)
| Pending.

(** A computation: the events it performed and its result. *)
Definition M (A : Type) : Type := (list Event * (A + Abort))%type.

Definition ret {A} (a : A) : M A := ([], inl a).

Definition bind {A B} (m : M A) (k : A -> M B) : M B :=
  match m with
  | (t, inl a) => let '(t', r) := k a in ((t ++ t')%list, r)
  | (t, inr x) => (t, inr x)
  end.

Definition emit (e : Event) : M unit := ([e], inl tt).

Definition throw {A} (e : JsObject) : M A := ([], inr (Thrown e)).

(** [process.exit(code)] *)
Definition exit (code : Z) : M unit := ([], inr (ProcessExit code)).

(** [return v;] *)
Definition return_ {A} (v : Z) : M A := ([], inr (Return v)).

(** [await p] of a promise that never settles. *)
Definition pending {A} : M A := ([], inr Pending).

(** The body of a function that returns a number: a [return] statement
    anywhere in it gives the function's value. *)
Definition function (body : M Z) : M Z :=
  match body with
  | (t, inr (Return v)) => (t, inl v)
  | _ => body
  end.

(** [await p] of a promise that settles as [r] *)
Definition await {A} (r : A + JsObject) : M A :=
  match r with
  | inl v => ret v
  | inr e => throw e
  end.

(** [try { m } catch (err) { h err }] *)
Definition try_catch {A} (m : M A) (h : JsObject -> M A) : M A :=
  match m with
  | (t, inr (Thrown e)) => let '(t', r) := h e in ((t ++ t')%list, r)
  | _ => m
  end.

Notation "'let*' x ':=' m 'in' k" := (bind m (fun x => k))
  (at level 10, x name, m at level 100, k at level 200).
Notation "m >> k" := (bind m (fun _ => k))
  (at level 90, right associativity).

(** [for (const x of l) { body x }] and [l.forEach(body)] *)
Fixpoint for_each {A} (l : list A) (body : A -> M unit) : M unit :=
  match l with
  | [] => ret tt
  | x :: l' => body x >> for_each l' body
  end.

Definition trace {A} (m : M A) : list Event := fst m.
Definition result {A} (m : M A) : A + Abort := snd m.

(** [await Promise.all(l.map(call))]: the calls are made one after the
    other, in index order, each returning its promise at once; the
    promises are then awaited together. [call k x] gives the event of the
    [k]-th call and the promise it returns. *)
Definition fan_out {A B} (call : nat -> A -> Event * Settled B) (l : list A)
  : M (list B) :=
  let calls := imap call l in
  (map fst calls,
   result (await (promise_all (map snd calls)))).

(** ** Collaborators *)

(** Rendering helpers the command imports (chalk, pluralize, ms,
    text-table, ../util/output/cmd and elapsed). They only shape text. *)
Record Render := {
  bold : string -> string;
  gray : string -> string;
  underline : string -> string;
  bold_red : string -> string;
  cmd : string -> string;
  (** [plural(word, count, true)] *)
  plural : string -> nat -> string;
  elapsed : Z -> string;
  ms : Z -> string;
  (** [table(rows, { align: ['l', 'r', 'l'], hsep: ' '.repeat(6) })] *)
  table : list (list string) -> string;
  (** The usage text that [help] prints (lines 17 to 54). *)
  usage : string
}.

(** The result of [mri] on [ctx.argv.slice(2)]: the five boolean options
    and the positional arguments [argv._]. *)
Record Argv := {
  opt_help : bool;
  opt_debug : bool;
  opt_hard : bool;
  opt_yes : bool;
  opt_safe : bool;
  positional : list string
}.

(** The context [main] receives, with [argv] already parsed. *)
Record Ctx := {
  parsed : Argv;
  ctx_apiUrl : string;
  ctx_token : string;
  ctx_currentTeam : option string
}.

(** The places where the command reads the clock. *)
Inductive ClockSite :=
| FindStart          (* line 123 *)
| FoundAt            (* line 170 *)
| ConfirmRow (i : nat)  (* line 223, row [i] of the table *)
| RemoveStart        (* line 187 *)
| RemoveDone.        (* line 193 *)

(** The environment of one run: what each collaborator answers. *)
Record World := {
  (** [normalizeURL] of ../util/url *)
  normalizeURL : string -> string;
  (** [getScope(...)]: the context name, or the error it rejects with *)
  getScope : Conn -> string + JsObject;
  (** [now.list(null, { version: 3 })] *)
  list_deployments : Conn -> list Deployment + JsObject;
  (** [getAliases(now, uid)], the [k]-th probe of the fan-out *)
  getAliases : Conn -> nat -> string -> Settled (list Alias);
  (** [now.remove(uid, { hard })], the [k]-th request of the batch *)
  remove : Conn -> nat -> string -> bool -> Settled unit;
  (** the first chunk that the data event of standard input delivers, as
      a string; [None] when the input ends without data *)
  stdin_data : option string;
  clock : ClockSite -> Z
}.

(** ** The command (part_000) *)

Section Command.

Variable R : Render.
Variable w : World.

(** [help()] *)
Definition help : M unit := emit (ConsoleLog (usage R)).

(** The callback of the second [matches.filter] (lines 144 to 151), from
    index [i] on. [aliases !! i] is [aliases[i]]; reading [length] of an
    [undefined] entry throws. *)
Fixpoint safety_filter_from (safe : bool) (aliases : list (list Alias))
    (i : nat) (matches : list Deployment) : M (list Deployment) :=
  match matches with
  | [] => ret []
  | m :: rest =>
      let keep :=
        let m' := set_aliases m (aliases !! i) in
        let* rest' := safety_filter_from safe aliases (S i) rest in
        ret (m' :: rest') in
      if safe then
        match aliases !! i with
        | None => throw TypeError
        | Some a =>
            if (0 <? length a)%nat
            then safety_filter_from safe aliases (S i) rest
            else keep
        end
      else keep
  end.

Definition safety_filter (safe : bool) (matches : list Deployment)
    (aliases : list (list Alias)) : M (list Deployment) :=
  safety_filter_from safe aliases 0%nat matches.

(** [readConfirmation(matches, output)] (lines 211 to 253) *)
Definition readConfirmation (matches : list Deployment) : M string :=
  emit (OutputLog ("The following " ++ plural R "deployment" (length matches)
                   ++ " will be permanently removed:")) >>
  let tbl := table R (imap (fun i depl =>
      let time := gray R (ms R (clock w (ConfirmRow i) - created depl) ++ " ago") in
      let url :=
        match url depl with
        | EmptyString => EmptyString
        | u => underline R ("https://" ++ u)
        end in
      [ "  " ++ uid depl; url; time ]) matches) in
  emit (OutputPrint (tbl ++ Js.nl)) >>
  for_each matches (fun depl =>
    match aliases depl with
    | None => throw TypeError
    | Some als =>
        for_each als (fun a =>
          emit (OutputWarn ("Deployment " ++ bold R (url depl) ++ " "
                            ++ "is an alias for " ++ underline R ("https://" ++ alias a)
                            ++ " and will be removed.")))
    end) >>
  emit (OutputPrint (bold_red R "> Are you sure?" ++ " " ++ gray R "[y/N] ")) >>
  emit StdinResume >>
  match stdin_data w with
  | Some d =>
      emit StdinPause >>
      ret (Js.trim d)
  | None => pending
  end.

(** [await Promise.all(matches.map(depl => getAliases(now, depl.uid)))] *)
Definition probe_aliases (now : Conn) (matches : list Deployment)
  : M (list (list Alias)) :=
  fan_out (fun k depl => (CallGetAliases now (uid depl),
                          getAliases w now k (uid depl))) matches.

(** [await Promise.all(matches.map(depl => now.remove(depl.uid, { hard })))] *)
Definition batch_remove (now : Conn) (hard : bool) (matches : list Deployment)
  : M (list unit) :=
  fan_out (fun k depl => (CallRemove now (uid depl) hard,
                          remove w now k (uid depl) hard)) matches.

(** The message of lines 155 to 159. *)
Definition not_found_message (safe : bool) (ids : list string) : string :=
  "Could not find "
  ++ (if safe then "unaliased" else "any")
  ++ " deployments matching "
  ++ Js.join ", " (map (fun id => bold R (Js.quoted id)) ids)
  ++ ". Run " ++ cmd R "now ls" ++ " to list.".

(** Lines 174 to 185 of [main]: the confirmation, unless it is skipped. *)
Definition confirm (skipConfirmation : bool) (now : Conn)
    (matches : list Deployment) : M unit :=
  if negb skipConfirmation then
    let* answer := readConfirmation matches in
    let confirmation := Js.toLowerCase answer in
    if negb (String.eqb confirmation "y") && negb (String.eqb confirmation "yes") then
      emit (OutputLog "Aborted") >>
      emit (CallClose now) >>
      return_ 1
    else ret tt
  else ret tt.

(** Lines 187 to 208 of [main]: the removal batch and its report. *)
Definition remove_all (hard : bool) (now : Conn) (matches : list Deployment)
  : M Z :=
  let start := clock w RemoveStart in
  batch_remove now hard matches >>
  emit (OutputSuccess (plural R "deployment" (length matches) ++ " removed "
                       ++ elapsed R (clock w RemoveDone - start))) >>
  for_each matches (fun depl =>
    emit (ConsoleLog (gray R "-" ++ " " ++ bold R (url depl)))) >>
  exit 0 >>
  return_ 0.

(** Lines 153 to 208 of [main]: what it does with the filtered matches. *)
Definition conclude (argv : Argv) (ids : list string) (now : Conn)
    (contextName : string) (findStart : Z) (matches : list Deployment) : M Z :=
  let hard := opt_hard argv || false in
  let skipConfirmation := opt_yes argv || false in
  (if (length matches =? 0)%nat then
     emit (OutputLog (not_found_message (opt_safe argv) ids)) >>
     return_ 0
   else ret tt) >>
  emit (OutputLog ("Found " ++ plural R "deployment" (length matches)
                   ++ " for removal in " ++ bold R contextName ++ " "
                   ++ elapsed R (clock w FoundAt - findStart))) >>
  confirm skipConfirmation now matches >>
  remove_all hard now matches.

(** [argv._.slice(1)], the identifiers *)
Definition ids_of (ctx : Ctx) : list string := drop 1 (positional (parsed ctx)).

(** What [getScope] is called with and the client [now] is built from. *)
Definition conn_of (ctx : Ctx) : Conn :=
  {| apiUrl := ctx_apiUrl ctx; token := ctx_token ctx;
     debug := opt_debug (parsed ctx); currentTeam := ctx_currentTeam ctx |}.

(** [argv.help || ids[0] === 'help'] *)
Definition help_requested (argv : Argv) (ids : list string) : bool :=
  opt_help argv
  || match ids !! 0%nat with Some id => String.eqb id "help" | None => false end.

(** [main(ctx)] (lines 59 to 209) *)
Definition main (ctx : Ctx) : M Z :=
  function (
    let argv := parsed ctx in
    let ids := ids_of ctx in
    (if (length ids <? 1)%nat then
       emit (OutputError (VStr (cmd R "now rm" ++ " expects at least one argument"))) >>
       help >>
       return_ 1
     else ret tt) >>
    (if help_requested argv ids then
       help >>
       return_ 2
     else ret tt) >>
    let conn := conn_of ctx in
    let* contextName :=
      try_catch
        (emit (CallGetScope conn) >>
         await (getScope w conn))
        (fun err =>
           (if has_code err "not_authorized" then
              emit (OutputError (field err "message")) >>
              return_ 1
            else ret tt) >>
           throw err) in
    let now := conn in
    emit (WaitStart ("Fetching deployment(s) "
                     ++ Js.join " " (map Js.quoted ids)
                     ++ " in " ++ bold R contextName)) >>
    let findStart := clock w FindStart in
    let* deployments :=
      try_catch
        (emit (CallList now) >>
         await (list_deployments w now))
        (fun err => emit WaitCancel >> throw err) in
    let matches := resolve (normalizeURL w) deployments ids in
    let* aliases :=
      try_catch
        (let* als := probe_aliases now matches in
         emit WaitCancel >>
         ret als)
        (fun err => emit WaitCancel >> throw err) in
    let* matches := safety_filter (opt_safe argv) matches aliases in
    conclude argv ids now contextName findStart matches).

End Command.

(** ** The typed errors (src/util/errors-ts.ts) *)

Module Errors.

(** The part of a fetch-h2 [Response] that [APIError] reads: the status
    and [headers.get], which gives [None] for an absent header. *)
Record Response := {
  status : Z;
  headers_get : string -> option string
}.

Definition is_digit (c : ascii) : bool :=
  let n := nat_of_ascii c in ((48 <=? n) && (n <=? 57))%nat.

(** The value of the longest prefix of decimal digits, after [acc], and
    whether any digit was read. *)
Fixpoint digits (s : string) (acc : Z) (seen : bool) : Z * bool :=
  match s with
  | String c s' =>
      if is_digit c
      then digits s' (10 * acc + Z.of_nat (nat_of_ascii c - 48)) true
      else (acc, seen)
  | EmptyString => (acc, seen)
  end.

(** The double nearest to the integer [m], for [0 <= m], with ties to
    the even significand; [None] when it is beyond the finite doubles.
    Integers below [2 ^ 53] are doubles; above, a double is a 53-bit
    significand [q] times a power of two. *)
Definition nearest_double (m : Z) : option Z :=
  if m <? 2 ^ 53 then Some m
  else
    let e := Z.log2 m - 52 in
    let q := m / 2 ^ e in
    let r := m mod 2 ^ e in
    let half := 2 ^ (e - 1) in
    let q' := if (half <? r) || ((r =? half) && Z.odd q) then q + 1 else q in
    let v := q' * 2 ^ e in
    if v <? 2 ^ 1024 then Some v else None.

(** The Number value for the integer [sign * m], where [0 <= m]. *)
Definition number_value (sign m : Z) : jsval :=
  if m =? 0 then (if sign <? 0 then VNegZero else VNum 0)
  else
    match nearest_double m with
    | Some v => VNum (sign * v)
    | None => if sign <? 0 then VNegInfinity else VInfinity
    end.

(** [parseInt(s, 10)]: leading white space is skipped, a sign is read,
    then the longest prefix of decimal digits; the result is [NaN] when
    there is no digit, and otherwise the Number value for the integer read:
    the nearest double, as V8 computes it for any number of digits. *)
Definition parseInt (s : string) : jsval :=
  let s := Js.trim_start s in
  let '(sign, s) :=
    match s with
    | String "-" s' => (-1, s')
    | String "+" s' => (1, s')
    | _ => (1, s)
    end in
  match digits s 0 false with
  | (n, true) => number_value sign n
  | (_, false) => VNaN
  end.

(** What [super()] makes of [this] (line 16): an [Error] without message,
    which holds the stack trace and inherits the name Error. *)
Definition Error_new : JsObject :=
  {[ "stack" := VStack; "name" := VStr "Error" ]}.

(** [this[field] = v] (line 25). The name __proto__ is not a field: it
    is the accessor of Object.prototype, and an assignment to it defines
    no field of the instance. Any other name becomes a field that the
    instance holds. *)
Definition assign (this : JsObject) (field : string) (v : jsval) : JsObject :=
  if String.eqb field "__proto__" then this else <[field := v]> this.

(** [new APIError(message, response, body)] (lines 10 to 37) *)
Definition APIError (message : string) (response : Response)
    (body : option JsObject) : JsObject :=
  let this : JsObject := Error_new in
  let this := <["message" := VStr (message ++ " (" ++ pretty (status response) ++ ")")]> this in
  let this := <["status" := VNum (status response)]> this in
  let this := <["serverMessage" := VStr message]> this in
  let this :=
    match body with
    | Some body =>
        map_fold (fun field v (this : JsObject) =>
                    if negb (String.eqb field "message")
                    then assign this field v
                    else this) this body
    | None => this
    end in
  if status response =? 429 then
    match headers_get response "Retry-After" with
    | Some retryAfter =>
        if negb (String.eqb retryAfter EmptyString)
        then <["retryAfter" := parseInt retryAfter]> this
        else this
    | None => this
    end
  else this.

(** Modelled from the spec: the base class [NowError] of ./now-error is
    not among the sources; its values carry a machine-readable code, a
    human message and a metadata payload. *)
Definition NowError (code message : string) (meta : list (string * string))
  : JsObject :=
  {[ "code" := VStr code; "message" := VStr message; "meta" := VRecord meta ]}.

Section Classes.

(** [param] of ./output/param, which formats a command for display. *)
Variable param : string -> string.


Definition InvalidToken : JsObject :=
  NowError "not_authorized" "The specified token is not valid" [].



Definition DomainPermissionDenied (domain context : string) : JsObject :=
  NowError "DOMAIN_PERMISSION_DENIED"
    ("You don't have access to the domain " ++ domain ++ " under "
     ++ context ++ ".")
    [("domain", domain); ("context", context)].

Definition DomainNotFound (domain : string) : JsObject :=
  NowError "DOMAIN_NOT_FOUND"
    ("The domain " ++ domain ++ " can't be found.")
    [("domain", domain)].




End Classes.

End Errors.

(** ** Fetching a domain (the part of src/util/errors-ts.ts after the
    classes, lines 123 to 149) *)

Module Domains.

(** [error.status === n] for a number literal [n]. *)
Definition has_status (o : JsObject) (n : Z) : bool :=
  match o !! "status" with
  | Some (VNum s) => s =? n
  | _ => false
  end.

Section GetDomainByName.

Variable R : Render.

(** The domain record that the API answers with. *)
Variable Payload : Type.

(** [client.fetch(path)]: the payload, or the error it rejects with. *)
Variable fetch : string -> Payload + JsObject.

(** [getDomainByName(client, contextName, domainName)]. Its value is the
    payload ([inl]) or the error object that it returns ([inr]); an error
    that it rethrows is [Thrown]. *)
Definition getDomainByName (contextName domainName : string)
  : M (Payload + JsObject) :=
  emit (WaitStart ("Fetching domains " ++ domainName ++ " under "
                   ++ bold R contextName)) >>
  try_catch
    (let* payload := await (fetch ("/v4/domains/" ++ domainName)) in
     emit WaitCancel >>
     ret (inl payload))
    (fun error =>
       emit WaitCancel >>
       if has_status error 404 then
         ret (inr (Errors.DomainNotFound domainName))
       else if has_status error 403 then
         ret (inr (Errors.DomainPermissionDenied domainName contextName))
       else throw error).

End GetDomainByName.

Arguments getDomainByName R {Payload} fetch contextName domainName.

End Domains.

(** ** The maximum of a scale command (part_001) *)

Module Scale.

(** [const AUTO = 'auto'] *)
Definition AUTO : jsval := VStr "auto".

(** An argument used as a condition: [undefined] and the empty string are
    falsy. *)
Definition truthy (a : option string) : bool :=
  match a with
  | Some (String _ _) => true
  | _ => false
  end.

Section GetMaxFromArgs.

(** What an [InvalidMinForScale] of ../errors holds. *)
Variable MinError : Type.

(** ./is-valid-min-max-value, ./to-number-or-auto and
    ./get-raw-min-from-args, which are not among the sources. An absent
    argument is [None]. *)
Variable isValidMinMaxValue : option string -> bool.
Variable toNumberOrAuto : option string -> jsval.
Variable getRawMinFromArgs : list string -> jsval + MinError.

(** What [getMaxFromArgs] returns: a number or [AUTO], or an instance of
    one of the three error classes of ../errors. *)
Inductive Max :=
| Value (v : jsval)
| InvalidMinForScale (e : MinError)
| InvalidArgsForMinMaxScale (min : jsval)
| InvalidMaxForScale (value : string).

(** [getMaxFromArgs(args)] (lines 13 to 36); [args !! k] is [args[k]]. *)
Definition getMaxFromArgs (args : list string) : Max :=
  match getRawMinFromArgs args with
  | inr e => InvalidMinForScale e
  | inl min =>
      if isValidMinMaxValue (args !! 2%nat) then
        if (4 <? length args)%nat then InvalidArgsForMinMaxScale min
        else if isValidMinMaxValue (args !! 3%nat)
             then Value (toNumberOrAuto (args !! 3%nat))
             else Value min
      else
        if negb (truthy (args !! 3%nat)) then Value AUTO
        else if isValidMinMaxValue (args !! 4%nat)
             then Value (toNumberOrAuto (args !! 4%nat))
             else match args !! 4%nat with
                  | Some (String c s) => InvalidMaxForScale (String c s)
                  | _ => Value min
                  end
  end.

End GetMaxFromArgs.

Arguments Value {MinError} _.
Arguments InvalidMinForScale {MinError} _.
Arguments InvalidArgsForMinMaxScale {MinError} _.
Arguments InvalidMaxForScale {MinError} _.

End Scale.

(** ** Concrete runs *)

Module Demo.

(** Rendering without colours. *)
Definition plain : Render := {|
  bold := fun s => s;
  gray := fun s => s;
  underline := fun s => s;
  bold_red := fun s => s;
  cmd := fun s => s;
  plural := fun word n => (if (n =? 1)%nat then "1 " ++ word else "some " ++ word ++ "s");
  elapsed := fun _ => "[1s]";
  ms := fun _ => "1d";
  table := fun rows => Js.join Js.nl (map (Js.join "      ") rows);
  usage := "now remove [...deploymentId|deploymentName]"
|}.

Definition network_down : JsObject :=
  {[ "code" := VStr "ENOTFOUND"; "message" := VStr "getaddrinfo ENOTFOUND" ]}.

Definition fulfilled {A} (t : nat) (v : A) : Settled A :=
  {| settled_at := t; outcome := inl v |}.
Definition rejected {A} (t : nat) (e : JsObject) : Settled A :=
  {| settled_at := t; outcome := inr e |}.

Definition app1 : Deployment :=
  {| uid := "a1"; name := "app"; url := "app.now.sh"; created := 0; aliases := None |}.
Definition app2 : Deployment :=
  {| uid := "a2"; name := "app"; url := "app2.now.sh"; created := 5; aliases := None |}.
Definition blog : Deployment :=
  {| uid := "b1"; name := "blog"; url := "blog.now.sh"; created := 7; aliases := None |}.

(** A world with three deployments; [a2] is aliased. *)
Definition world (answer : string) : World := {|
  normalizeURL := UrlSpec.normalizeURL;
  getScope := fun _ => inl "me";
  list_deployments := fun _ => inl [app1; app2; blog];
  getAliases := fun _ k id =>
    fulfilled k (if String.eqb id "a2" then [ {| alias := "app.com" |} ] else []);
  remove := fun _ k _ _ => fulfilled k tt;
  stdin_data := Some answer;
  clock := fun _ => 100
|}.

Definition args (safe yes help : bool) (ids : list string) : Ctx := {|
  parsed := {| opt_help := help; opt_debug := false; opt_hard := false;
               opt_yes := yes; opt_safe := safe; positional := "rm" :: ids |};
  ctx_apiUrl := "https://api.zeit.co";
  ctx_token := "t0k3n";
  ctx_currentTeam := None
|}.

(** The same world, where the probe of [a2] and the removal of [a1]
    fail. *)
Definition flaky (answer : string) : World := {|
  normalizeURL := UrlSpec.normalizeURL;
  getScope := fun _ => inl "me";
  list_deployments := fun _ => inl [app1; app2; blog];
  getAliases := fun _ k id =>
    if String.eqb id "a2" then rejected k network_down else fulfilled k [];
  remove := fun _ k id _ =>
    if String.eqb id "a1" then rejected (10 - k) network_down else fulfilled k tt;
  stdin_data := Some answer;
  clock := fun _ => 100
|}.

End Demo.


(** Stand-ins for the helpers of [getMaxFromArgs], for the examples: a
    value is valid when it is auto or starts with a digit. *)
Module ScaleDemo.

Definition isValid (a : option string) : bool :=
  match a with
  | Some "auto" => true
  | Some (String c _) => Errors.is_digit c
  | _ => false
  end.

Definition toNumber (a : option string) : jsval :=
  match a with
  | Some "auto" => Scale.AUTO
  | Some s => Errors.parseInt s
  | None => VNaN
  end.

Definition rawMin (args : list string) : jsval + string :=
  if isValid (args !! 2%nat) then inl (toNumber (args !! 2%nat))
  else if isValid (args !! 3%nat) then inl (toNumber (args !! 3%nat))
  else match args !! 3%nat with
       | Some (String c s) => inr (String c s)
       | _ => inl (VNum 1)
       end.

End ScaleDemo.

(** ** Vocabulary of the statements *)

(** What claim C1 says of the URL comparison: both sides are normalized. *)
Definition resolves_by_normalizing_both (normalize : string -> string)
    (D : list Deployment) (I : list string) : Prop :=
  forall d, In d (resolve normalize D I) <->
    In d D /\ exists i, In i I /\
      (i = uid d \/ i = name d \/ normalize i = normalize (url d)).

(** [p], at index [k] of [ps], is a rejection that no other rejection
    precedes. *)
Definition earliest_rejection {A} (ps : list (Settled A)) (k : nat)
    (p : Settled A) (e : JsObject) : Prop :=
  ps !! k = Some p /\ outcome p = inr e /\
  forall j q e', ps !! j = Some q -> outcome q = inr e' ->
    (settled_at p <= settled_at q)%nat.

(** A deployment with the alias list probed for it: the deployment as
    fetched, but for its aliases. *)
Definition annotate (p : Deployment * list Alias) : Deployment :=
  {| uid := uid (fst p); name := name (fst p); url := url (fst p);
     created := created (fst p); aliases := Some (snd p) |}.

(** The alias list is empty. *)
Definition unaliased (p : Deployment * list Alias) : bool :=
  match snd p with [] => true | _ => false end.

(** The uids for which a removal request was issued, in order. *)
Definition removals (t : list Event) : list string :=
  flat_map (fun ev => match ev with CallRemove _ id _ => [id] | _ => [] end) t.

(** The prompts for an answer on standard input. *)
Definition prompts (t : list Event) : list Event :=
  List.filter (fun ev => match ev with StdinResume => true | _ => false end) t.

(** The run passes the argument checks, [getScope] answers with the
    context name [cn] and [now.list] with the deployments [D]. *)
Definition fetched (w : World) (ctx : Ctx) (cn : string) (D : list Deployment)
  : Prop :=
  ids_of ctx <> [] /\
  help_requested (parsed ctx) (ids_of ctx) = false /\
  getScope w (conn_of ctx) = inl cn /\
  list_deployments w (conn_of ctx) = inl D.

(** What [main] has done when the alias probes have settled. *)
Definition probed_trace (R : Render) (ctx : Ctx) (cn : string)
    (matches : list Deployment) : list Event :=
  ([ CallGetScope (conn_of ctx);
     WaitStart ("Fetching deployment(s) "
                ++ Js.join " " (map Js.quoted (ids_of ctx))
                ++ " in " ++ bold R cn);
     CallList (conn_of ctx) ]
   ++ map (fun d => CallGetAliases (conn_of ctx) (uid d)) matches
   ++ [ WaitCancel ])%list.

(** A trace without removal request and without prompt. *)
Definition quiet (t : list Event) : Prop := removals t = [] /\ prompts t = [].

(** The run reaches line 153 with the candidate set [cands]: what
    [fetched] says, every alias probe is fulfilled and the safety filter
    returns [cands]. *)
Definition candidates (w : World) (ctx : Ctx) (cn : string)
    (D cands : list Deployment) : Prop :=
  fetched w ctx cn D /\
  exists als,
    result (probe_aliases w (conn_of ctx) (resolve (normalizeURL w) D (ids_of ctx)))
    = inl als /\
    safety_filter (opt_safe (parsed ctx))
      (resolve (normalizeURL w) D (ids_of ctx)) als = ret cands.

(** The fields of an [APIError] before its constructor reads the body:
    those of the [Error], then message, status and serverMessage. *)
Definition own_fields (message : string) (response : Errors.Response) : JsObject :=
  <["serverMessage" := VStr message]>
    (<["status" := VNum (Errors.status response)]>
       (<["message" := VStr (message ++ " (" ++ pretty (Errors.status response) ++ ")")]>
          Errors.Error_new)).

(** The code points of the white space and of the line terminators of
    ECMAScript: TAB, LF, VT, FF, CR, SPACE, NO-BREAK SPACE, OGHAM SPACE
    MARK, EN QUAD to HAIR SPACE, LINE SEPARATOR, PARAGRAPH SEPARATOR,
    NARROW NO-BREAK SPACE, MEDIUM MATHEMATICAL SPACE, IDEOGRAPHIC SPACE and
    the byte order mark. *)
Definition white_code_points : list N :=
  [ 0x9; 0xA; 0xB; 0xC; 0xD; 0x20; 0xA0; 0x1680;
    0x2000; 0x2001; 0x2002; 0x2003; 0x2004; 0x2005; 0x2006; 0x2007;
    0x2008; 0x2009; 0x200A; 0x2028; 0x2029; 0x202F; 0x205F; 0x3000;
    0xFEFF ]%N.

(** The UTF-8 encoding of a code point of the basic plane. *)
Definition utf8 (c : N) : string :=
  Js.bytes (map N.to_nat
    (if c <? 0x80 then [c]
     else if c <? 0x800 then [0xC0 + c / 64; 0x80 + c mod 64]
     else [0xE0 + c / 4096; 0x80 + (c / 64) mod 64; 0x80 + c mod 64])%N).

(** A run of white space: a sequence of the characters that [trim]
    removes. *)
Inductive white : string -> Prop :=
| white_nil : white EmptyString
| white_cons t s : In t Js.white_space -> white s -> white (t ++ s).

(** The spellings of y and yes, in every mix of upper and lower case. *)
Definition yes_variants : list string :=
  ["y"; "Y"; "yes"; "yeS"; "yEs"; "yES"; "Yes"; "YeS"; "YEs"; "YES"].

(** The chunk of input is a spelling of y or yes, with white space and
    nothing else before and after it. *)
Definition affirmative_input (chunk : string) : Prop :=
  exists pre core post,
    chunk = pre ++ core ++ post /\ white pre /\ white post /\ In core yes_variants.

(** No sequence of [ts] is a proper prefix of another. *)
Definition prefix_free_b (ts : list string) : bool :=
  forallb (fun t1 => forallb (fun t2 =>
     match Js.strip_prefix t1 t2 with
     | Some r => String.eqb r EmptyString
     | None => true
     end) ts) ts.

(** No white space sequence starts with [c]. *)
Definition plain (c : ascii) : bool :=
  forallb (fun t => match t with
                    | String a _ => negb (Ascii.eqb a c)
                    | EmptyString => false
                    end) Js.white_space.

Fixpoint all_plain (s : string) : bool :=
  match s with
  | EmptyString => true
  | String c s' => plain c && all_plain s'
  end.

(** The answer that [main] compares with y and yes: the chunk read,
    trimmed and in lower case; empty when standard input ends without
    data, in which case [main] compares nothing. *)
Definition answer_of (w : World) : string :=
  match stdin_data w with
  | Some d => Js.toLowerCase (Js.trim d)
  | None => EmptyString
  end.

(** The removal goes ahead: the confirmation is skipped or the answer is
    y or yes. *)
Definition confirmed (w : World) (ctx : Ctx) : Prop :=
  opt_yes (parsed ctx) = true \/ answer_of w = "y" \/ answer_of w = "yes".

(** How many entries of [l] have the uid [u]. *)
Definition count_uid (u : string) (l : list Deployment) : nat :=
  length (List.filter (fun d => String.eqb (uid d) u) l).

(** How many times [u] occurs in [l]. *)
Definition occurrences (u : string) (l : list string) : nat :=
  length (List.filter (String.eqb u) l).

(** The world [w] with another chunk on standard input, or none. *)
Definition with_stdin (w : World) (s : option string) : World :=
  {| normalizeURL := normalizeURL w; getScope := getScope w;
     list_deployments := list_deployments w; getAliases := getAliases w;
     remove := remove w; stdin_data := s; clock := clock w |}.

(** Safe mode caused the emptiness of the candidate set: safe mode is on
    and some deployment matched, so that the filter dropped every match. *)
Definition emptied_by_safe_mode (w : World) (ctx : Ctx) (D : list Deployment) : Prop :=
  opt_safe (parsed ctx) = true /\ resolve (normalizeURL w) D (ids_of ctx) <> [].

(** The confirmation is asked for, a chunk is read and the answer is
    neither y nor yes. *)
Definition declined (w : World) (ctx : Ctx) : Prop :=
  opt_yes (parsed ctx) = false /\ (exists d, stdin_data w = Some d) /\
  answer_of w <> "y" /\ answer_of w <> "yes".

(** The confirmation is asked for and standard input ends without data. *)
Definition unanswered (w : World) (ctx : Ctx) : Prop :=
  opt_yes (parsed ctx) = false /\ stdin_data w = None.

(** How many events of [t] satisfy [p]. *)
Definition count_events (p : Event -> bool) (t : list Event) : nat :=
  length (List.filter p t).

Definition is_wait_start (ev : Event) : bool :=
  match ev with WaitStart _ => true | _ => false end.

Definition is_wait_cancel (ev : Event) : bool :=
  match ev with WaitCancel => true | _ => false end.

Definition is_warn (ev : Event) : bool :=
  match ev with OutputWarn _ => true | _ => false end.

(** The warning of lines 233 to 238 for the alias [a] of [depl]. *)
Definition alias_warning (R : Render) (depl : Deployment) (a : Alias) : Event :=
  OutputWarn ("Deployment " ++ bold R (url depl) ++ " "
              ++ "is an alias for " ++ underline R ("https://" ++ alias a)
              ++ " and will be removed.").

(** The ways a run of [main] goes, with what is known of it in each. *)
Inductive main_case (R : Render) (w : World) (ctx : Ctx) : Prop :=
| case_usage :
    ids_of ctx = [] ->
    main R w ctx
    = ([ OutputError (VStr (cmd R "now rm" ++ " expects at least one argument"));
         ConsoleLog (usage R) ], inl 1) ->
    main_case R w ctx
| case_help :
    ids_of ctx <> [] -> help_requested (parsed ctx) (ids_of ctx) = true ->
    main R w ctx = ([ConsoleLog (usage R)], inl 2) ->
    main_case R w ctx
| case_scope_failed err :
    ids_of ctx <> [] -> help_requested (parsed ctx) (ids_of ctx) = false ->
    getScope w (conn_of ctx) = inr err ->
    main R w ctx
    = (if has_code err "not_authorized"
       then ([CallGetScope (conn_of ctx); OutputError (field err "message")], inl 1)
       else ([CallGetScope (conn_of ctx)], inr (Thrown err))) ->
    main_case R w ctx
| case_list_failed cn err :
    ids_of ctx <> [] -> help_requested (parsed ctx) (ids_of ctx) = false ->
    getScope w (conn_of ctx) = inl cn ->
    list_deployments w (conn_of ctx) = inr err ->
    main R w ctx
    = ([ CallGetScope (conn_of ctx);
         WaitStart ("Fetching deployment(s) "
                    ++ Js.join " " (map Js.quoted (ids_of ctx))
                    ++ " in " ++ bold R cn);
         CallList (conn_of ctx);
         WaitCancel ], inr (Thrown err)) ->
    main_case R w ctx
| case_probe_failed cn D k d e :
    fetched w ctx cn D ->
    resolve (normalizeURL w) D (ids_of ctx) !! k = Some d ->
    outcome (getAliases w (conn_of ctx) k (uid d)) = inr e ->
    main R w ctx
    = (probed_trace R ctx cn (resolve (normalizeURL w) D (ids_of ctx)),
       inr (Thrown e)) ->
    main_case R w ctx
| case_candidates cn D cands :
    candidates w ctx cn D cands ->
    trace (main R w ctx)
    = (probed_trace R ctx cn (resolve (normalizeURL w) D (ids_of ctx))
       ++ trace (conclude R w (parsed ctx) (ids_of ctx) (conn_of ctx) cn
                   (clock w FindStart) cands))%list ->
    (cands = [] /\ result (main R w ctx) = inl 0 /\
     removals (trace (main R w ctx)) = [] /\ prompts (trace (main R w ctx)) = []) \/
    (cands <> [] /\ declined w ctx /\ result (main R w ctx) = inl 1 /\
     removals (trace (main R w ctx)) = [] /\
     prompts (trace (main R w ctx)) = [StdinResume]) \/
    (cands <> [] /\ unanswered w ctx /\ result (main R w ctx) = inr Pending /\
     removals (trace (main R w ctx)) = [] /\
     prompts (trace (main R w ctx)) = [StdinResume]) \/
    (cands <> [] /\ confirmed w ctx /\
     removals (trace (main R w ctx)) = map uid cands /\
     result (main R w ctx)
     = match result (batch_remove w (conn_of ctx) (opt_hard (parsed ctx)) cands) with
       | inl _ => inr (ProcessExit 0)
       | inr x => inr x
       end) ->
    main_case R w ctx.

(** The uids for which an alias probe was issued, in order. *)
Definition probe_calls (t : list Event) : list string :=
  flat_map (fun ev => match ev with CallGetAliases _ id => [id] | _ => [] end) t.

(** * Properties *)

(** ** The resolver *)

Section ResolverFacts.

Variable normalize : string -> string.

Lemma matches_id_spec (d : Deployment) (id : string) :
  matches_id normalize d id = true <->
  id = uid d \/ id = name d \/ url d = normalize id.
Proof.
  unfold matches_id.
  rewrite !orb_true_iff, !String.eqb_eq.
  intuition congruence.
Qed.

Lemma resolve_In (D : list Deployment) (I : list string) (d : Deployment) :
  In d (resolve normalize D I) <->
  In d D /\ exists i, In i I /\ (i = uid d \/ i = name d \/ url d = normalize i).
Proof.
  unfold resolve. rewrite filter_In, existsb_exists.
  split; intros [Hd [i [Hi Hm]]]; (split; [exact Hd | exists i; split; [exact Hi |]]).
  - now apply matches_id_spec.
  - now apply matches_id_spec.
Qed.

Lemma resolve_sublist (D : list Deployment) (I : list string) :
  sublist (resolve normalize D I) D.
Proof.
  unfold resolve. induction D as [|d D IH]; simpl.
  - constructor.
  - destruct (existsb (matches_id normalize d) I); now constructor.
Qed.

Lemma resolve_uids_sublist (D : list Deployment) (I : list string) :
  sublist (map uid (resolve normalize D I)) (map uid D).
Proof.
  unfold resolve. induction D as [|d D IH]; simpl.
  - constructor.
  - destruct (existsb (matches_id normalize d) I); simpl; now constructor.
Qed.

Lemma resolve_filter_Exists (D : list Deployment) (I : list string) :
  resolve normalize D I
  = filter (fun d => Exists (fun i => i = uid d \/ i = name d
                                      \/ url d = normalize i) I) D.
Proof.
  unfold resolve. induction D as [|d D IH]; [reflexivity |].
  rewrite filter_cons. simpl. rewrite <- IH.
  destruct (existsb (matches_id normalize d) I) eqn:Hd.
  - rewrite decide_True; [reflexivity |].
    apply existsb_exists in Hd as [i [Hi Hm]].
    apply Exists_exists. exists i. split; [now apply list_elem_of_In |].
    now apply matches_id_spec.
  - rewrite decide_False; [reflexivity |].
    intros [i [Hi Hm]]%Exists_exists.
    assert (existsb (matches_id normalize d) I = true); [| congruence].
    apply existsb_exists. exists i. split; [now apply list_elem_of_In |].
    now apply matches_id_spec.
Qed.

End ResolverFacts.

(** C1, as stated, fails: the identifier foo.com does not select a
    deployment whose url is https://foo.com/, although both normalize to
    foo.com, because the url of the deployment is compared as it is. *)
Lemma resolve_normalizes_identifier_only_cex :
  let d := {| uid := "u1"; name := "web"; url := "https://foo.com/";
              created := 0; aliases := None |} in
  UrlSpec.normalizeURL "foo.com" = UrlSpec.normalizeURL (url d) /\
  resolve UrlSpec.normalizeURL [d] ["foo.com"] = [] /\
  ~ resolves_by_normalizing_both UrlSpec.normalizeURL [d] ["foo.com"].
Proof.
  intros d. split; [reflexivity | split; [reflexivity |]].
  intros H. destruct (H d) as [_ Hback].
  assert (Hin : In d (resolve UrlSpec.normalizeURL [d] ["foo.com"])).
  { apply Hback. split; [now left |].
    exists "foo.com". split; [now left | right; right; reflexivity]. }
  exact Hin.
Qed.

(** The direction of C1 that the code has: an identifier written with
    scheme and trailing slash selects the deployment with the bare url. *)
Example resolve_full_url_identifier :
  let d := {| uid := "u1"; name := "web"; url := "foo.com";
              created := 0; aliases := None |} in
  resolve UrlSpec.normalizeURL [d] ["https://foo.com/"] = [d].
Proof. reflexivity. Qed.

(** C1 (amended): for every deployment list [D] and identifier list [I]
    the resolver returns exactly the deployments [d] of [D], in the order
    of [D], for which some identifier [i] satisfies [i = d.uid], or
    [i = d.name], or [d.url = normalizeURL i]: the identifier is
    normalized, the url of the deployment is compared as fetched. *)
Theorem resolve_exact (normalize : string -> string)
    (D : list Deployment) (I : list string) :
  (forall d, In d (resolve normalize D I) <->
     In d D /\ exists i, In i I /\
       (i = uid d \/ i = name d \/ url d = normalize i)) /\
  resolve normalize D I
  = filter (fun d => Exists (fun i => i = uid d \/ i = name d
                                      \/ url d = normalize i) I) D.
Proof.
  split; [intros d; apply resolve_In | apply resolve_filter_Exists].
Qed.

(** ** [Promise.all] *)

Section PromiseAllFacts.

Context {A : Type}.
Implicit Types (ps : list (Settled A)) (p : Settled A).

Lemma first_rejection_None ps :
  first_rejection ps = None <->
  forall k p, ps !! k = Some p -> exists v, outcome p = inl v.
Proof.
  induction ps as [|p ps IH]; simpl.
  - split; [intros _ k p Hk; destruct k; discriminate | reflexivity].
  - destruct (outcome p) as [v|e] eqn:Hp.
    + rewrite IH. split.
      * intros H [|k] q Hq; simpl in Hq.
        -- inversion Hq; subst. eauto.
        -- eauto.
      * intros H k q Hq. apply (H (S k)). exact Hq.
    + split.
      * destruct (first_rejection ps) as [[t e']|]; [| discriminate].
        destruct (settled_at p <=? t)%nat; discriminate.
      * intros H. destruct (H 0%nat p eq_refl) as [v Hv]. congruence.
Qed.

Lemma first_rejection_Some ps t e :
  first_rejection ps = Some (t, e) ->
  exists k p, earliest_rejection ps k p e /\ settled_at p = t.
Proof.
  revert t e. induction ps as [|p ps IH]; simpl; intros t e H; [discriminate |].
  destruct (outcome p) as [v|e0] eqn:Hp.
  - destruct (IH _ _ H) as (k & q & (Hk & Hq & Hmin) & Ht).
    exists (S k), q. split; [| exact Ht].
    split; [exact Hk | split; [exact Hq |]].
    intros [|j] q' e' Hj Hq'; simpl in Hj.
    + inversion Hj; subst. congruence.
    + eauto.
  - destruct (first_rejection ps) as [[t' e'']|] eqn:Hps.
    + destruct (IH _ _ eq_refl) as (k & q & (Hk & Hq & Hmin) & Ht).
      destruct (settled_at p <=? t')%nat eqn:Hle; inversion H; subst.
      * apply Nat.leb_le in Hle.
        exists 0%nat, p. split; [| reflexivity].
        split; [reflexivity | split; [exact Hp |]].
        intros [|j] q' e' Hj Hq'; simpl in Hj.
        -- inversion Hj; subst. lia.
        -- specialize (Hmin _ _ _ Hj Hq'). lia.
      * apply Nat.leb_gt in Hle.
        exists (S k), q. split; [| reflexivity].
        split; [exact Hk | split; [exact Hq |]].
        intros [|j] q' e' Hj Hq'; simpl in Hj.
        -- inversion Hj; subst. lia.
        -- eauto.
    + inversion H; subst.
      exists 0%nat, p. split; [| reflexivity].
      split; [reflexivity | split; [exact Hp |]].
      intros [|j] q' e' Hj Hq'; simpl in Hj.
      * inversion Hj; subst. lia.
      * apply first_rejection_None with (k := j) (p := q') in Hps as [v Hv];
          [congruence | exact Hj].
Qed.

Lemma promise_all_inr ps e :
  promise_all ps = inr e -> exists k p, earliest_rejection ps k p e.
Proof.
  unfold promise_all. destruct (first_rejection ps) as [[t e']|] eqn:Hps;
    [| discriminate].
  intros H; inversion H; subst.
  destruct (first_rejection_Some _ _ _ Hps) as (k & p & Hear & _). eauto.
Qed.

Lemma fulfilments_all ps :
  (forall k p, ps !! k = Some p -> exists v, outcome p = inl v) ->
  length (fulfilments ps) = length ps /\
  forall k p, ps !! k = Some p ->
    exists v, fulfilments ps !! k = Some v /\ outcome p = inl v.
Proof.
  induction ps as [|p ps IH]; intros Hall; simpl.
  - split; [reflexivity | intros k p Hk; destruct k; discriminate].
  - destruct (Hall 0%nat p eq_refl) as [v Hv]. rewrite Hv.
    destruct IH as [Hlen Hval].
    { intros k q Hq. apply (Hall (S k)). exact Hq. }
    split; [simpl; now rewrite Hlen |].
    intros [|k] q Hq; simpl in Hq.
    + inversion Hq; subst. exists v. split; [reflexivity | exact Hv].
    + simpl. eauto.
Qed.

(** When [Promise.all] is fulfilled, its array has one value per
    promise, at the index of the promise. *)
Lemma promise_all_inl ps vs :
  promise_all ps = inl vs ->
  length vs = length ps /\
  forall k p, ps !! k = Some p ->
    exists v, vs !! k = Some v /\ outcome p = inl v.
Proof.
  unfold promise_all. destruct (first_rejection ps) as [[t e']|] eqn:Hps;
    [discriminate |].
  intros H; inversion H; subst.
  apply fulfilments_all. now apply first_rejection_None.
Qed.

End PromiseAllFacts.


(** ** The safety filter *)

Section SafetyFilterFacts.

Variable R : Render.
Variable w : World.

Lemma safety_filter_from_aligned (safe : bool) (pre : list (list Alias))
    (l : list (Deployment * list Alias)) :
  safety_filter_from safe (pre ++ map snd l)%list (length pre) (map fst l)
  = ret (map annotate (if safe then List.filter unaliased l else l)).
Proof.
  revert pre. induction l as [|[d a] l IH]; intros pre.
  - destruct safe; reflexivity.
  - assert (Hlook : (pre ++ map snd ((d, a) :: l))%list !! length pre = Some a).
    { rewrite lookup_app_r by lia. now rewrite Nat.sub_diag. }
    assert (Hrest : safety_filter_from safe (pre ++ map snd ((d, a) :: l))%list
                      (S (length pre)) (map fst l)
                    = ret (map annotate (if safe then List.filter unaliased l else l))).
    { specialize (IH (pre ++ [a])%list).
      rewrite <- app_assoc, length_app in IH. simpl in IH.
      rewrite Nat.add_1_r in IH. exact IH. }
    change (map fst ((d, a) :: l)) with (d :: map fst l).
    cbn [safety_filter_from]. rewrite Hlook, Hrest.
    destruct safe; [| reflexivity].
    destruct a as [|a0 a]; reflexivity.
Qed.

End SafetyFilterFacts.

(** C5: on an alias-annotated list (deployments paired with their alias
    lists), the safety filter with safe mode on returns exactly the
    entries whose alias list is empty, and with safe mode off it returns
    every entry, in the order of the input in both cases. Each deployment
    it returns is the deployment of its entry (same uid, name, url and
    creation time) and carries the alias list of that entry in its aliases
    field, which is therefore the empty list for every deployment returned
    in safe mode. The filter performs no effect and does not throw. *)
Theorem safety_filter_exact (safe : bool) (l : list (Deployment * list Alias)) :
  let kept := if safe then List.filter unaliased l else l in
  safety_filter safe (map fst l) (map snd l) = ([], inl (map annotate kept)) /\
  (forall p, unaliased p = true <-> snd p = []) /\
  (forall i p, kept !! i = Some p ->
     exists c, map annotate kept !! i = Some c /\
       aliases c = Some (snd p) /\
       uid c = uid (fst p) /\ name c = name (fst p) /\
       url c = url (fst p) /\ created c = created (fst p)) /\
  length (map annotate kept) = length kept /\
  (safe = true -> forall c, In c (map annotate kept) -> aliases c = Some []).
Proof.
  intros kept. split; [| split; [| split; [| split]]].
  - unfold safety_filter. apply (safety_filter_from_aligned safe [] l).
  - intros [d [|a0 a]]; cbn; split; intros H; first [reflexivity | discriminate].
  - intros i p Hp. exists (annotate p). split; [| now repeat split].
    rewrite list_lookup_fmap, Hp. reflexivity.
  - apply length_map.
  - intros -> c (p & <- & Hin)%in_map_iff. unfold kept in Hin.
    apply List.filter_In in Hin as [_ Hun]. destruct p as [d [|a0 a]];
      [reflexivity | discriminate].
Qed.

(** C5 holds of three deployments of which the second has an alias: in
    safe mode the first and the third are returned, each with an empty
    alias list; outside safe mode the second is returned too, with its
    alias. *)
Lemma safety_filter_exact_witness :
  let l := [ (Demo.app1, []); (Demo.app2, [ {| alias := "app.com" |} ]);
             (Demo.blog, []) ] in
  result (safety_filter true (map fst l) (map snd l))
  = inl [ set_aliases Demo.app1 (Some []); set_aliases Demo.blog (Some []) ] /\
  map aliases [ set_aliases Demo.app1 (Some []); set_aliases Demo.blog (Some []) ]
  = [ Some []; Some [] ] /\
  (exists c, result (safety_filter false (map fst l) (map snd l))
             = inl [ set_aliases Demo.app1 (Some []); c;
                     set_aliases Demo.blog (Some []) ] /\
             uid c = "a2" /\
             aliases c = Some [ {| alias := "app.com" |} ]).
Proof.
  intros l.
  destruct (safety_filter_exact true l) as [Hsafe _].
  destruct (safety_filter_exact false l) as (Hall & _ & Hfields & _).
  split; [rewrite Hsafe; reflexivity | split; [reflexivity |]].
  destruct (Hfields 1%nat (Demo.app2, [ {| alias := "app.com" |} ]) eq_refl)
    as (c & Hc & Hal & Hu & _).
  exists c. split; [| split; [exact Hu | exact Hal]].
  rewrite Hall. injection Hc as <-. reflexivity.
Defined.

(** ** The fan-out of requests *)

Section FanOutFacts.

Context {A B : Type}.
Variable call : nat -> A -> Event * Settled B.

Lemma fan_out_promises (l : list A) (k : nat) :
  map snd (imap call l) !! k = (fun x => snd (call k x)) <$> l !! k.
Proof.
  change (map snd (imap call l)) with (snd <$> imap call l).
  rewrite list_lookup_fmap, list_lookup_imap.
  now destruct (l !! k).
Qed.

(** Every call is made, in the order of the list, whatever the promises
    settle to. *)
Lemma fan_out_trace (ev : A -> Event) (l : list A) :
  (forall k x, fst (call k x) = ev x) ->
  trace (fan_out call l) = map ev l.
Proof.
  intros Hev. unfold fan_out, trace. cbn [fst].
  change (map fst (imap call l)) with (fst <$> imap call l).
  change (map ev l) with (ev <$> l).
  apply list_eq. intros k.
  rewrite !list_lookup_fmap, list_lookup_imap.
  destruct (l !! k); simpl; [now rewrite Hev | reflexivity].
Qed.

Lemma fan_out_result (l : list A) :
  result (fan_out call l)
  = match promise_all (map snd (imap call l)) with
    | inl vs => inl vs
    | inr e => inr (Thrown e)
    end.
Proof.
  unfold fan_out, result. cbn [snd].
  now destruct (promise_all (map snd (imap call l))).
Qed.

Lemma fan_out_inl (l : list A) (vs : list B) :
  result (fan_out call l) = inl vs ->
  length vs = length l /\
  forall k x, l !! k = Some x ->
    exists v, vs !! k = Some v /\ outcome (snd (call k x)) = inl v.
Proof.
  rewrite fan_out_result.
  destruct (promise_all (map snd (imap call l))) as [vs'|e] eqn:Hall;
    [| discriminate].
  intros H; inversion H; subst vs'.
  apply promise_all_inl in Hall as [Hlen Hval].
  split.
  - rewrite Hlen. change (map snd (imap call l)) with (snd <$> imap call l).
    now rewrite length_fmap, length_imap.
  - intros k x Hk. apply (Hval k (snd (call k x))).
    rewrite fan_out_promises, Hk. reflexivity.
Qed.

Lemma fan_out_inr (l : list A) (x : Abort) :
  result (fan_out call l) = inr x ->
  exists k a e, x = Thrown e /\ l !! k = Some a /\
    outcome (snd (call k a)) = inr e /\
    forall j b e', l !! j = Some b -> outcome (snd (call j b)) = inr e' ->
      (settled_at (snd (call k a)) <= settled_at (snd (call j b)))%nat.
Proof.
  rewrite fan_out_result.
  destruct (promise_all (map snd (imap call l))) as [vs'|e] eqn:Hall;
    [discriminate |].
  intros H; inversion H; subst x.
  apply promise_all_inr in Hall as (k & p & Hk & Hp & Hmin).
  rewrite fan_out_promises in Hk.
  destruct (l !! k) as [a|] eqn:Hlk; [| discriminate].
  inversion Hk; subst p.
  exists k, a, e. repeat split; try assumption.
  intros j b e' Hj Hb. apply (Hmin j (snd (call j b)) e'); [| exact Hb].
  rewrite fan_out_promises, Hj. reflexivity.
Qed.

(** A single failing request fails the whole fan-out. *)
Lemma fan_out_rejects (l : list A) (k : nat) (a : A) (e : JsObject) :
  l !! k = Some a -> outcome (snd (call k a)) = inr e ->
  exists x, result (fan_out call l) = inr x.
Proof.
  intros Hk He.
  destruct (result (fan_out call l)) as [vs|x] eqn:Hres; [| eauto].
  apply fan_out_inl in Hres as [_ Hval].
  destruct (Hval k a Hk) as (v & _ & Hv). congruence.
Qed.

Lemma fan_out_fulfilled (l : list A) :
  (forall k a, l !! k = Some a -> exists v, outcome (snd (call k a)) = inl v) ->
  exists vs, result (fan_out call l) = inl vs.
Proof.
  intros Hall.
  destruct (result (fan_out call l)) as [vs|x] eqn:Hres; [eauto |].
  apply fan_out_inr in Hres as (k & a & e & _ & Hk & He & _).
  destruct (Hall k a Hk) as [v Hv]. congruence.
Qed.

End FanOutFacts.

(** ** Sequencing *)

Lemma bind_unfold {A B} (m : M A) (k : A -> M B) :
  bind m k
  = match result m with
    | inl a => ((trace m ++ trace (k a))%list, result (k a))
    | inr x => (trace m, inr x)
    end.
Proof.
  destruct m as [t [a|x]]; simpl; [| reflexivity].
  now destruct (k a).
Qed.

Lemma ret_bind {A B} (a : A) (k : A -> M B) : bind (ret a) k = k a.
Proof. unfold bind, ret. now destruct (k a). Qed.

Lemma surjective_run {A} (m : M A) : m = (trace m, result m).
Proof. now destruct m. Qed.

Lemma removals_app (t1 t2 : list Event) :
  removals (t1 ++ t2) = (removals t1 ++ removals t2)%list.
Proof. apply flat_map_app. Qed.

Lemma prompts_app (t1 t2 : list Event) :
  prompts (t1 ++ t2) = (prompts t1 ++ prompts t2)%list.
Proof. apply List.filter_app. Qed.

Lemma removals_probe_calls (now : Conn) (ms : list Deployment) :
  removals (map (fun d => CallGetAliases now (uid d)) ms) = [].
Proof. induction ms; simpl; auto. Qed.

Lemma prompts_probe_calls (now : Conn) (ms : list Deployment) :
  prompts (map (fun d => CallGetAliases now (uid d)) ms) = [].
Proof. induction ms; simpl; auto. Qed.

Lemma removals_remove_calls (now : Conn) (hard : bool) (ms : list Deployment) :
  removals (map (fun d => CallRemove now (uid d) hard) ms) = map uid ms.
Proof. induction ms; simpl; congruence. Qed.

Lemma prompts_remove_calls (now : Conn) (hard : bool) (ms : list Deployment) :
  prompts (map (fun d => CallRemove now (uid d) hard) ms) = [].
Proof. induction ms; simpl; auto. Qed.

Lemma removals_probed_trace R ctx cn ms : removals (probed_trace R ctx cn ms) = [].
Proof.
  unfold probed_trace. rewrite !removals_app, removals_probe_calls. reflexivity.
Qed.

Lemma prompts_probed_trace R ctx cn ms : prompts (probed_trace R ctx cn ms) = [].
Proof.
  unfold probed_trace. rewrite !prompts_app, prompts_probe_calls. reflexivity.
Qed.

(** ** The run of [main] up to the safety filter *)

Section MainFacts.

Variable R : Render.
Variable w : World.

Lemma probe_aliases_trace now ms :
  trace (probe_aliases w now ms)
  = map (fun d => CallGetAliases now (uid d)) ms.
Proof. unfold probe_aliases. now apply fan_out_trace. Qed.

Lemma batch_remove_trace now hard ms :
  trace (batch_remove w now hard ms)
  = map (fun d => CallRemove now (uid d) hard) ms.
Proof. unfold batch_remove. now apply fan_out_trace. Qed.

Lemma length_ltb_1 {X} (l : list X) : l <> [] -> (length l <? 1)%nat = false.
Proof. destruct l; [congruence | reflexivity]. Qed.

(** A failed probe: [main] stops there and rethrows. *)
Lemma main_probe_failed ctx cn D x :
  fetched w ctx cn D ->
  result (probe_aliases w (conn_of ctx) (resolve (normalizeURL w) D (ids_of ctx)))
  = inr x ->
  main R w ctx
  = (probed_trace R ctx cn (resolve (normalizeURL w) D (ids_of ctx)), inr x).
Proof.
  intros (Hids & Hhelp & Hscope & Hlist) Hprobe.
  assert (Hx : exists e, x = Thrown e).
  { unfold probe_aliases in Hprobe.
    apply fan_out_inr in Hprobe as (k & a & e & -> & _). eauto. }
  destruct Hx as [e ->].
  unfold main. rewrite (length_ltb_1 _ Hids), Hhelp, Hscope, Hlist.
  cbn [bind ret emit await try_catch app].
  rewrite (surjective_run (probe_aliases _ _ _)), probe_aliases_trace, Hprobe.
  cbn [bind ret emit await throw try_catch app function].
  reflexivity.
Qed.

(** Fulfilled probes: [main] filters and goes on with [conclude]. *)
Lemma main_probed ctx cn D als cands :
  fetched w ctx cn D ->
  result (probe_aliases w (conn_of ctx) (resolve (normalizeURL w) D (ids_of ctx)))
  = inl als ->
  safety_filter (opt_safe (parsed ctx))
    (resolve (normalizeURL w) D (ids_of ctx)) als = ret cands ->
  main R w ctx
  = function
      (bind (probed_trace R ctx cn (resolve (normalizeURL w) D (ids_of ctx)), inl tt)
         (fun _ => conclude R w (parsed ctx) (ids_of ctx) (conn_of ctx) cn
                     (clock w FindStart) cands)).
Proof.
  intros (Hids & Hhelp & Hscope & Hlist) Hprobe Hfilter.
  unfold main. rewrite (length_ltb_1 _ Hids), Hhelp, Hscope, Hlist.
  cbn [bind ret emit await try_catch app].
  rewrite (surjective_run (probe_aliases _ _ _)), probe_aliases_trace, Hprobe.
  cbn [bind ret emit await throw try_catch app function].
  rewrite Hfilter. cbn [bind ret].
  destruct (conclude R w (parsed ctx) (ids_of ctx) (conn_of ctx) cn
              (clock w FindStart) cands) as [t r].
  unfold probed_trace. cbn [app]. now rewrite <- !app_assoc.
Qed.

End MainFacts.

(** ** Alignment of the alias array with the matches *)

Section Alignment.

Variable w : World.

(** When every probe is fulfilled, the alias array pairs up with the
    matches, index by index. *)
Lemma probe_aliases_zip now ms als :
  result (probe_aliases w now ms) = inl als ->
  map fst (zip ms als) = ms /\ map snd (zip ms als) = als /\
  forall d a, In (d, a) (zip ms als) ->
    exists i, ms !! i = Some d /\ als !! i = Some a /\
              outcome (getAliases w now i (uid d)) = inl a.
Proof.
  intros Hres. unfold probe_aliases in Hres.
  apply fan_out_inl in Hres as [Hlen Hval]. cbn [snd] in Hval.
  split; [apply fst_zip; lia | split; [apply snd_zip; lia |]].
  intros d a Hin.
  apply list_elem_of_In, list_elem_of_lookup in Hin as [i Hi].
  apply lookup_zip_Some in Hi as [Hd Ha].
  exists i. split; [exact Hd | split; [exact Ha |]].
  destruct (Hval i d Hd) as (v & Hv & Hout). congruence.
Qed.

Lemma In_filtered_zip (safe : bool) (l : list (Deployment * list Alias)) p :
  In p (if safe then List.filter unaliased l else l) ->
  In p l /\ (safe = true -> snd p = []).
Proof.
  destruct safe; [| intros H; split; [exact H | discriminate]].
  intros [Hin Hun]%filter_In. split; [exact Hin | intros _].
  unfold unaliased in Hun. now destruct (snd p).
Qed.

(** What the filter returns after fulfilled probes. *)
Lemma filtered_candidates now (safe : bool) ms als :
  result (probe_aliases w now ms) = inl als ->
  exists cands,
    safety_filter safe ms als = ret cands /\
    (forall c, In c cands ->
       exists i d a, ms !! i = Some d /\ als !! i = Some a /\
         outcome (getAliases w now i (uid d)) = inl a /\
         c = set_aliases d (Some a)) /\
    sublist (map uid cands) (map uid ms) /\
    (safe = false -> map uid cands = map uid ms).
Proof.
  intros Hprobe.
  pose proof (probe_aliases_zip _ _ _ Hprobe) as (Hfst & Hsnd & Hzip).
  pose proof (safety_filter_from_aligned safe [] (zip ms als)) as Hfilter.
  cbn [app length] in Hfilter. fold (safety_filter safe (map fst (zip ms als))
                                       (map snd (zip ms als))) in Hfilter.
  rewrite Hfst, Hsnd in Hfilter.
  assert (Hms : map uid ms = map (fun p => uid (fst p)) (zip ms als)).
  { rewrite <- Hfst at 1. now rewrite map_map. }
  eexists. split; [exact Hfilter | split; [| split]].
  - intros c [[d a] [<- Hin]]%in_map_iff.
    apply In_filtered_zip in Hin as [Hin _].
    destruct (Hzip d a Hin) as (i & Hd & Ha & Hout).
    exists i, d, a. auto.
  - rewrite Hms, map_map. cbn [annotate set_aliases uid].
    destruct safe; [| reflexivity].
    clear. induction (zip ms als) as [|p l IH]; simpl; [constructor |].
    destruct (unaliased p); simpl; constructor; exact IH.
  - intros ->. now rewrite Hms, map_map.
Qed.

End Alignment.

(** C10: in every run of [main] that reaches the safety filter (the
    arguments pass the checks, the scope and the deployments are fetched
    and every alias probe is fulfilled), the alias array has the length of
    the list of matches and holds at each index the alias list fetched for
    the uid of the match at that index; the filter therefore reads only
    defined entries and does not throw, and each deployment that survives
    it carries the alias list fetched for its own uid. *)
Theorem aliases_aligned_with_matches (R : Render) (w : World) (ctx : Ctx)
    (cn : string) (D : list Deployment) (als : list (list Alias)) :
  fetched w ctx cn D ->
  result (probe_aliases w (conn_of ctx) (resolve (normalizeURL w) D (ids_of ctx)))
  = inl als ->
  let ms := resolve (normalizeURL w) D (ids_of ctx) in
  length als = length ms /\
  (forall i d, ms !! i = Some d ->
     exists a, als !! i = Some a /\
       outcome (getAliases w (conn_of ctx) i (uid d)) = inl a) /\
  exists cands,
    safety_filter (opt_safe (parsed ctx)) ms als = ret cands /\
    (forall c, In c cands ->
       exists i d a, ms !! i = Some d /\ als !! i = Some a /\
         outcome (getAliases w (conn_of ctx) i (uid d)) = inl a /\
         c = set_aliases d (Some a)) /\
    main R w ctx
    = function
        (bind (probed_trace R ctx cn ms, inl tt)
           (fun _ => conclude R w (parsed ctx) (ids_of ctx) (conn_of ctx) cn
                       (clock w FindStart) cands)).
Proof.
  intros Hfetched Hprobe ms.
  pose proof Hprobe as Hp. unfold probe_aliases in Hp.
  apply fan_out_inl in Hp as [Hlen Hval]. cbn [snd] in Hval.
  split; [exact Hlen | split; [exact Hval |]].
  destruct (filtered_candidates w _ (opt_safe (parsed ctx)) _ _ Hprobe)
    as (cands & Hfilter & Hcands & _).
  exists cands. split; [exact Hfilter | split; [exact Hcands |]].
  now apply main_probed with (D := D) (als := als).
Qed.

(** C10 holds of a run in which two deployments are matched and probed. *)
Lemma aliases_aligned_with_matches_witness :
  let w := Demo.world "yes" in
  let ctx := Demo.args false false false ["app"] in
  let D := [Demo.app1; Demo.app2; Demo.blog] in
  let als := [[]; [ {| alias := "app.com" |} ]] in
  fetched w ctx "me" D /\
  result (probe_aliases w (conn_of ctx) (resolve (normalizeURL w) D (ids_of ctx)))
  = inl als /\
  exists cands,
    safety_filter false (resolve (normalizeURL w) D (ids_of ctx)) als = ret cands /\
    map aliases cands = [Some []; Some [ {| alias := "app.com" |} ]].
Proof.
  intros w ctx D als.
  assert (Hfetched : fetched w ctx "me" D).
  { unfold fetched. repeat split; [discriminate | reflexivity..]. }
  assert (Hprobe : result (probe_aliases w (conn_of ctx)
                             (resolve (normalizeURL w) D (ids_of ctx))) = inl als)
    by reflexivity.
  split; [exact Hfetched | split; [exact Hprobe |]].
  destruct (aliases_aligned_with_matches Demo.plain w ctx "me" D als Hfetched Hprobe)
    as (_ & _ & cands & Hfilter & _ & _).
  exists cands. split; [exact Hfilter |].
  vm_compute in Hfilter. inversion Hfilter. reflexivity.
Defined.

(** ** Failure of the probing phase *)

(** C4: if any single alias probe of the fan-out over the matched
    deployments fails, [main] stops when the probes have settled: it
    cancels the spinner and throws the reason of the first probe that
    failed. Nothing else happens: the filter does not run on the alias
    lists of the probes that were fulfilled, no confirmation is asked for
    and no removal request is issued. *)
Theorem failed_probe_aborts (R : Render) (w : World) (ctx : Ctx) (cn : string)
    (D : list Deployment) (k : nat) (d : Deployment) (e : JsObject) :
  fetched w ctx cn D ->
  let ms := resolve (normalizeURL w) D (ids_of ctx) in
  ms !! k = Some d ->
  outcome (getAliases w (conn_of ctx) k (uid d)) = inr e ->
  exists k' d' e',
    ms !! k' = Some d' /\
    outcome (getAliases w (conn_of ctx) k' (uid d')) = inr e' /\
    (forall j dj ej, ms !! j = Some dj ->
       outcome (getAliases w (conn_of ctx) j (uid dj)) = inr ej ->
       (settled_at (getAliases w (conn_of ctx) k' (uid d'))
        <= settled_at (getAliases w (conn_of ctx) j (uid dj)))%nat) /\
    main R w ctx = (probed_trace R ctx cn ms, inr (Thrown e')) /\
    removals (trace (main R w ctx)) = [] /\
    prompts (trace (main R w ctx)) = [].
Proof.
  intros Hfetched ms Hk He.
  destruct (fan_out_rejects
              (fun k depl => (CallGetAliases (conn_of ctx) (uid depl),
                              getAliases w (conn_of ctx) k (uid depl)))
              ms k d e Hk He) as [x Hx].
  pose proof Hx as Hx'.
  apply fan_out_inr in Hx' as (k' & d' & e' & -> & Hk' & He' & Hmin).
  cbn [snd] in He', Hmin.
  pose proof (main_probe_failed R w ctx cn D _ Hfetched Hx) as Hmain.
  exists k', d', e'. rewrite Hmain. cbn [trace fst].
  repeat split; try assumption.
  - apply removals_probed_trace.
  - apply prompts_probed_trace.
Qed.

(** C4 holds of a run in which the second of two probes fails. *)
Lemma failed_probe_aborts_witness :
  let w := Demo.flaky "yes" in
  let ctx := Demo.args false true false ["app"] in
  let D := [Demo.app1; Demo.app2; Demo.blog] in
  fetched w ctx "me" D /\
  resolve (normalizeURL w) D (ids_of ctx) !! 1%nat = Some Demo.app2 /\
  outcome (getAliases w (conn_of ctx) 1 (uid Demo.app2)) = inr Demo.network_down /\
  result (main Demo.plain w ctx) = inr (Thrown Demo.network_down) /\
  removals (trace (main Demo.plain w ctx)) = [].
Proof.
  intros w ctx D.
  assert (Hfetched : fetched w ctx "me" D).
  { unfold fetched. repeat split; [discriminate | reflexivity..]. }
  split; [exact Hfetched | split; [reflexivity | split; [reflexivity |]]].
  destruct (failed_probe_aborts Demo.plain w ctx "me" D 1 Demo.app2
              Demo.network_down Hfetched eq_refl eq_refl)
    as (k' & d' & e' & _ & _ & _ & _ & Hrem & _).
  split; [reflexivity | exact Hrem].
Defined.

(** ** The end of the run: report, confirmation and removal *)

Lemma quiet_app t1 t2 : quiet t1 -> quiet t2 -> quiet (t1 ++ t2).
Proof.
  intros [H1 H2] [H3 H4]. split.
  - now rewrite removals_app, H1, H3.
  - now rewrite prompts_app, H2, H4.
Qed.

Lemma for_each_quiet {A} (l : list A) (body : A -> M unit) :
  (forall x, In x l -> result (body x) = inl tt /\ quiet (trace (body x))) ->
  result (for_each l body) = inl tt /\ quiet (trace (for_each l body)).
Proof.
  induction l as [|x l IH]; intros Hbody; [now repeat split |].
  cbn [for_each]. rewrite bind_unfold.
  destruct (Hbody x (or_introl eq_refl)) as [-> Hq].
  destruct IH as [Hres Hrest]; [intros y Hy; apply Hbody; now right |].
  cbn [result trace fst snd]. split; [exact Hres | now apply quiet_app].
Qed.

Section ConcludeFacts.

Variable R : Render.
Variable w : World.

(** Nothing is left to remove: the message and [return 0]. *)
Lemma conclude_empty argv ids now cn fs :
  conclude R w argv ids now cn fs []
  = ([OutputLog (not_found_message R (opt_safe argv) ids)], inr (Return 0)).
Proof. reflexivity. Qed.

(** The prompt is printed and standard input is listened to, provided
    the alias list of every candidate is defined; the promise is resolved
    with the chunk that is read, trimmed, and stays pending when no data
    comes. *)
Lemma readConfirmation_answer (cands : list Deployment) :
  (forall c, In c cands -> aliases c <> None) ->
  result (readConfirmation R w cands)
  = match stdin_data w with
    | Some d => inl (Js.trim d)
    | None => inr Pending
    end /\
  removals (trace (readConfirmation R w cands)) = [] /\
  prompts (trace (readConfirmation R w cands)) = [StdinResume].
Proof.
  intros Hdef. unfold readConfirmation.
  match goal with |- context [for_each cands ?body] =>
    destruct (for_each_quiet cands body) as [Hres [Hrem Hpr]] end.
  { intros c Hc. destruct (aliases c) as [als|] eqn:Hals;
      [| now destruct (Hdef c Hc)].
    apply for_each_quiet. intros a _. now repeat split. }
  destruct (stdin_data w) as [d|];
    repeat (rewrite ?bind_unfold, ?Hres;
            cbn [emit ret pending result trace fst snd]);
    rewrite !removals_app, !prompts_app, Hrem, Hpr;
    now repeat split.
Qed.

End ConcludeFacts.

Section ConcludeRuns.

Variable R : Render.
Variable w : World.

Lemma remove_all_run hard now cands :
  removals (trace (remove_all R w hard now cands)) = map uid cands /\
  prompts (trace (remove_all R w hard now cands)) = [] /\
  result (remove_all R w hard now cands)
  = match result (batch_remove w now hard cands) with
    | inl _ => inr (ProcessExit 0)
    | inr x => inr x
    end.
Proof.
  unfold remove_all.
  match goal with |- context [for_each cands ?body] =>
    destruct (for_each_quiet cands body) as [Hres [Hrem Hpr]] end.
  { intros c _. now repeat split. }
  rewrite bind_unfold.
  destruct (result (batch_remove w now hard cands)) as [vs|x] eqn:Hbatch;
    cbn [trace result fst snd]; rewrite batch_remove_trace.
  - repeat (rewrite ?bind_unfold, ?Hres; cbn [emit ret exit result trace fst snd]).
    rewrite !removals_app, !prompts_app, Hrem, Hpr.
    rewrite removals_remove_calls, prompts_remove_calls.
    cbn. rewrite app_nil_r. now repeat split.
  - rewrite removals_remove_calls, prompts_remove_calls. now repeat split.
Qed.

Lemma confirm_skipped now cands : confirm R w true now cands = ret tt.
Proof. reflexivity. Qed.

Lemma confirm_asked now cands :
  (forall c, In c cands -> aliases c <> None) ->
  removals (trace (confirm R w false now cands)) = [] /\
  prompts (trace (confirm R w false now cands)) = [StdinResume] /\
  result (confirm R w false now cands)
  = match stdin_data w with
    | Some _ =>
        if String.eqb (answer_of w) "y" || String.eqb (answer_of w) "yes"
        then inl tt else inr (Return 1)
    | None => inr Pending
    end.
Proof.
  intros Hdef. destruct (readConfirmation_answer R w cands Hdef) as (Hres & Hrem & Hpr).
  unfold confirm, answer_of. cbn [negb]. rewrite bind_unfold, Hres.
  destruct (stdin_data w) as [d|]; [| now repeat split].
  destruct (String.eqb (Js.toLowerCase (Js.trim d)) "y"),
           (String.eqb (Js.toLowerCase (Js.trim d)) "yes");
    cbn [negb andb orb bind emit ret return_ trace result fst snd];
    rewrite ?removals_app, ?prompts_app, Hrem, Hpr; now repeat split.
Qed.

Lemma length_eqb_0 {X} (l : list X) : l <> [] -> (length l =? 0)%nat = false.
Proof. destruct l; [congruence | reflexivity]. Qed.

(** With candidates, [conclude] reports them, asks and removes. *)
Lemma conclude_nonempty argv ids now cn fs cands :
  cands <> [] ->
  exists found,
    conclude R w argv ids now cn fs cands
    = bind (emit (OutputLog found))
        (fun _ => bind (confirm R w (opt_yes argv || false) now cands)
           (fun _ => remove_all R w (opt_hard argv || false) now cands)).
Proof.
  intros Hne. unfold conclude. rewrite (length_eqb_0 _ Hne), ret_bind.
  eexists. reflexivity.
Qed.

End ConcludeRuns.

(** ** The run of [main] from the candidate set on *)

Lemma function_unfold (m : M Z) :
  function m
  = (trace m, match result m with inr (Return v) => inl v | r => r end).
Proof. destruct m as [t [v|[e|c|v|]]]; reflexivity. Qed.

Section MainRuns.

Variable R : Render.
Variable w : World.

Lemma candidates_facts ctx cn D cands :
  candidates w ctx cn D cands ->
  main R w ctx
  = function
      (bind (probed_trace R ctx cn (resolve (normalizeURL w) D (ids_of ctx)), inl tt)
         (fun _ => conclude R w (parsed ctx) (ids_of ctx) (conn_of ctx) cn
                     (clock w FindStart) cands)) /\
  (forall c, In c cands -> aliases c <> None) /\
  sublist (map uid cands) (map uid (resolve (normalizeURL w) D (ids_of ctx))) /\
  (opt_safe (parsed ctx) = false ->
   map uid cands = map uid (resolve (normalizeURL w) D (ids_of ctx))).
Proof.
  intros (Hfetched & als & Hprobe & Hfilter).
  destruct (filtered_candidates w _ (opt_safe (parsed ctx)) _ _ Hprobe)
    as (cands' & Hfilter' & Hcands & Hsub & Hall).
  assert (cands' = cands) as ->.
  { rewrite Hfilter in Hfilter'. unfold ret in Hfilter'. congruence. }
  split; [now apply main_probed with (D := D) (als := als) |].
  split; [| split; assumption].
  intros c Hc. destruct (Hcands c Hc) as (i & d & a & _ & _ & _ & ->).
  discriminate.
Qed.

(** No candidate: the message, and [main] returns 0. *)
Lemma main_nothing ctx cn D :
  candidates w ctx cn D [] ->
  main R w ctx
  = ((probed_trace R ctx cn (resolve (normalizeURL w) D (ids_of ctx))
      ++ [OutputLog (not_found_message R (opt_safe (parsed ctx)) (ids_of ctx))])%list,
     inl 0).
Proof.
  intros Hc. destruct (candidates_facts _ _ _ _ Hc) as [-> _].
  rewrite conclude_empty. reflexivity.
Qed.

(** Candidates and a declined confirmation: [main] returns 1 and no
    removal request is issued. *)
Lemma main_declined ctx cn D cands d :
  candidates w ctx cn D cands -> cands <> [] ->
  opt_yes (parsed ctx) = false -> stdin_data w = Some d ->
  answer_of w <> "y" -> answer_of w <> "yes" ->
  result (main R w ctx) = inl 1 /\
  removals (trace (main R w ctx)) = [] /\
  prompts (trace (main R w ctx)) = [StdinResume].
Proof.
  intros Hc Hne Hyes Hd Hy Hyes'.
  destruct (candidates_facts _ _ _ _ Hc) as (-> & Hdef & _).
  destruct (conclude_nonempty R w (parsed ctx) (ids_of ctx) (conn_of ctx) cn
              (clock w FindStart) cands Hne) as [found ->].
  destruct (confirm_asked R w (conn_of ctx) cands Hdef) as (Hrem & Hpr & Hres).
  apply String.eqb_neq in Hy, Hyes'. rewrite Hd, Hy, Hyes' in Hres. cbn [orb] in Hres.
  rewrite Hyes, function_unfold. cbn [orb].
  repeat (rewrite ?bind_unfold, ?Hres; cbn [emit ret result trace fst snd]).
  rewrite !removals_app, !prompts_app, Hrem, Hpr,
    removals_probed_trace, prompts_probed_trace.
  now repeat split.
Qed.

(** Candidates and a confirmation asked for on an input that ends without
    data: [main] waits for ever, and no removal request is issued. *)
Lemma main_unanswered ctx cn D cands :
  candidates w ctx cn D cands -> cands <> [] ->
  opt_yes (parsed ctx) = false -> stdin_data w = None ->
  result (main R w ctx) = inr Pending /\
  removals (trace (main R w ctx)) = [] /\
  prompts (trace (main R w ctx)) = [StdinResume].
Proof.
  intros Hc Hne Hyes Hd.
  destruct (candidates_facts _ _ _ _ Hc) as (-> & Hdef & _).
  destruct (conclude_nonempty R w (parsed ctx) (ids_of ctx) (conn_of ctx) cn
              (clock w FindStart) cands Hne) as [found ->].
  destruct (confirm_asked R w (conn_of ctx) cands Hdef) as (Hrem & Hpr & Hres).
  rewrite Hd in Hres.
  rewrite Hyes, function_unfold. cbn [orb].
  repeat (rewrite ?bind_unfold, ?Hres; cbn [emit ret result trace fst snd]).
  rewrite !removals_app, !prompts_app, Hrem, Hpr,
    removals_probed_trace, prompts_probed_trace.
  now repeat split.
Qed.

Lemma confirmed_answer ctx :
  confirmed w ctx -> opt_yes (parsed ctx) = false ->
  exists d, stdin_data w = Some d /\
    (String.eqb (answer_of w) "y" || String.eqb (answer_of w) "yes") = true.
Proof.
  unfold confirmed, answer_of. intros [Hyes | Hans] Hno; [congruence |].
  destruct (stdin_data w) as [d|]; [| destruct Hans; discriminate].
  exists d. split; [reflexivity |].
  destruct Hans as [-> | ->]; reflexivity.
Qed.

(** Candidates and a confirmation given or skipped: one removal request
    per candidate; the result is that of the batch. *)
Lemma main_confirmed ctx cn D cands :
  candidates w ctx cn D cands -> cands <> [] ->
  confirmed w ctx ->
  removals (trace (main R w ctx)) = map uid cands /\
  result (main R w ctx)
  = match result (batch_remove w (conn_of ctx) (opt_hard (parsed ctx) || false) cands) with
    | inl _ => inr (ProcessExit 0)
    | inr x => inr x
    end.
Proof.
  intros Hc Hne Hconf.
  destruct (candidates_facts _ _ _ _ Hc) as (-> & Hdef & _).
  destruct (conclude_nonempty R w (parsed ctx) (ids_of ctx) (conn_of ctx) cn
              (clock w FindStart) cands Hne) as [found ->].
  destruct (remove_all_run R w (opt_hard (parsed ctx) || false) (conn_of ctx) cands)
    as (Hrem & _ & Hres).
  assert (Hgate : result (confirm R w (opt_yes (parsed ctx) || false) (conn_of ctx) cands)
                  = inl tt /\
                  removals (trace (confirm R w (opt_yes (parsed ctx) || false)
                                     (conn_of ctx) cands)) = []).
  { pose proof (confirmed_answer ctx Hconf) as Hans.
    destruct (opt_yes (parsed ctx)) eqn:Hyes; cbn [orb].
    - now rewrite confirm_skipped.
    - destruct (confirm_asked R w (conn_of ctx) cands Hdef) as (Hr & _ & Hq).
      split; [| exact Hr]. rewrite Hq.
      destruct (Hans eq_refl) as (d & -> & ->). reflexivity. }
  destruct Hgate as [Hgres Hgrem].
  assert (Hx : forall x, result (batch_remove w (conn_of ctx)
                                   (opt_hard (parsed ctx) || false) cands) = inr x ->
                         exists e, x = Thrown e).
  { intros x Hx. unfold batch_remove in Hx.
    apply fan_out_inr in Hx as (k & a & e & -> & _). eauto. }
  rewrite function_unfold.
  repeat (rewrite ?bind_unfold, ?Hgres; cbn [emit ret result trace fst snd]).
  rewrite !removals_app, Hgrem, Hrem, removals_probed_trace, Hres.
  split; [reflexivity |].
  destruct (result (batch_remove w (conn_of ctx) (opt_hard (parsed ctx) || false) cands))
    as [vs|x]; [reflexivity |].
  destruct (Hx x eq_refl) as [e ->]. reflexivity.
Qed.

End MainRuns.

(** ** Nothing to remove *)

(** C7, as stated, fails: in safe mode with an identifier that matches
    no deployment, safe mode does not cause the emptiness (nothing is
    filtered out, and the candidate set is as empty without safe mode),
    yet the message is the one about unaliased deployments, not the one
    that the run without safe mode prints. *)
Lemma nothing_matched_in_safe_mode_cex :
  let w := Demo.world "yes" in
  let D := [Demo.app1; Demo.app2; Demo.blog] in
  let ctx := Demo.args true false false ["missing-id"] in
  let ctx' := Demo.args false false false ["missing-id"] in
  candidates w ctx "me" D [] /\ candidates w ctx' "me" D [] /\
  resolve (normalizeURL w) D (ids_of ctx) = [] /\
  (~ emptied_by_safe_mode w ctx D) /\
  In (OutputLog ("Could not find unaliased deployments matching "
                 ++ Js.quoted "missing-id" ++ ". Run now ls to list."))
     (trace (main Demo.plain w ctx)) /\
  (~ In (OutputLog ("Could not find any deployments matching "
                    ++ Js.quoted "missing-id" ++ ". Run now ls to list."))
        (trace (main Demo.plain w ctx))) /\
  In (OutputLog ("Could not find any deployments matching "
                 ++ Js.quoted "missing-id" ++ ". Run now ls to list."))
     (trace (main Demo.plain w ctx')).
Proof.
  intros w D ctx ctx'.
  assert (Hc : forall safe, candidates w (Demo.args safe false false ["missing-id"])
                              "me" D []).
  { intros safe.
    split; [unfold fetched; repeat split; [discriminate | reflexivity..] |].
    exists []. split; [reflexivity | now destruct safe]. }
  split; [exact (Hc true) | split; [exact (Hc false) | split; [reflexivity |]]].
  split; [intros [_ Hne]; now apply Hne |].
  split; [cbn; repeat (first [left; reflexivity | right]) |].
  split; [| cbn; repeat (first [left; reflexivity | right])].
  cbn. intros H.
  repeat (destruct H as [H | H]; [discriminate H |]). exact H.
Qed.

(** C7 (amended): whenever the candidate set is empty after resolution
    and safety filtering, [main] logs one message and returns 0 without
    asking for a confirmation and without any removal request. The text
    of the message is chosen by the safe option alone, whatever made the
    set empty: it reads Could not find unaliased deployments matching ...
    when safe mode is on and Could not find any deployments matching ...
    when it is off, and the two texts differ. *)
Theorem nothing_to_remove (R : Render) (w : World) (ctx : Ctx) (cn : string)
    (D : list Deployment) :
  candidates w ctx cn D [] ->
  result (main R w ctx) = inl 0 /\
  removals (trace (main R w ctx)) = [] /\
  prompts (trace (main R w ctx)) = [] /\
  trace (main R w ctx)
  = (probed_trace R ctx cn (resolve (normalizeURL w) D (ids_of ctx))
     ++ [OutputLog (not_found_message R (opt_safe (parsed ctx)) (ids_of ctx))])%list /\
  (forall ids, exists rest,
     not_found_message R true ids
     = "Could not find unaliased deployments matching " ++ rest) /\
  (forall ids, exists rest,
     not_found_message R false ids
     = "Could not find any deployments matching " ++ rest) /\
  (forall ids, not_found_message R true ids <> not_found_message R false ids).
Proof.
  intros Hc. rewrite (main_nothing R w ctx cn D Hc). cbn [result trace fst snd].
  rewrite removals_app, prompts_app, removals_probed_trace, prompts_probed_trace.
  repeat split.
  - intros ids. eexists. unfold not_found_message. cbn. reflexivity.
  - intros ids. eexists. unfold not_found_message. cbn. reflexivity.
  - intros ids. unfold not_found_message. cbn. discriminate.
Qed.

(** C7 holds of the run in safe mode on the aliased deployment a2. *)
Lemma nothing_to_remove_witness :
  let w := Demo.world "yes" in
  let ctx := Demo.args true false false ["a2"] in
  candidates w ctx "me" [Demo.app1; Demo.app2; Demo.blog] [] /\
  result (main Demo.plain w ctx) = inl 0 /\
  removals (trace (main Demo.plain w ctx)) = [].
Proof.
  intros w ctx.
  assert (Hc : candidates w ctx "me" [Demo.app1; Demo.app2; Demo.blog] []).
  { split; [unfold fetched; repeat split; [discriminate | reflexivity..] |].
    exists [[ {| alias := "app.com" |} ]]. split; reflexivity. }
  split; [exact Hc |].
  destruct (nothing_to_remove Demo.plain w ctx "me" _ Hc) as (Hres & Hrem & _).
  split; [exact Hres | exact Hrem].
Defined.

(** ** Help *)

(** C8, as stated, fails: with the help flag set and no identifier,
    [main] reports the missing argument and returns 1, not 2. *)
Lemma help_without_identifier_cex :
  let ctx := Demo.args false false true [] in
  opt_help (parsed ctx) = true /\
  help_requested (parsed ctx) (ids_of ctx) = true /\
  main Demo.plain (Demo.world "yes") ctx
  = ([ OutputError (VStr "now rm expects at least one argument");
       ConsoleLog (usage Demo.plain) ], inl 1) /\
  result (main Demo.plain (Demo.world "yes") ctx) <> inl 2.
Proof.
  intros ctx. repeat split. discriminate.
Qed.

(** C8 (amended): for every argument vector with at least one identifier
    in which help is requested (the help flag is set or the first
    identifier is help), [main] prints the usage and returns 2, however
    many identifiers follow; with no identifier it reports the missing
    argument, prints the usage and returns 1, even when the help flag is
    set. *)
Theorem help_returns_2 (R : Render) (w : World) (ctx : Ctx) :
  help_requested (parsed ctx) (ids_of ctx) = true ->
  (ids_of ctx <> [] -> main R w ctx = ([ConsoleLog (usage R)], inl 2)) /\
  (ids_of ctx = [] ->
   main R w ctx
   = ([ OutputError (VStr (cmd R "now rm" ++ " expects at least one argument"));
        ConsoleLog (usage R) ], inl 1)).
Proof.
  intros Hhelp. split; intros Hids; unfold main.
  - rewrite (length_ltb_1 _ Hids), Hhelp. reflexivity.
  - rewrite Hids. reflexivity.
Qed.

(** C8 (amended) holds of a run with the help flag and two identifiers. *)
Lemma help_returns_2_witness :
  let ctx := Demo.args false false true ["a1"; "b1"] in
  help_requested (parsed ctx) (ids_of ctx) = true /\
  result (main Demo.plain (Demo.world "yes") ctx) = inl 2.
Proof.
  intros ctx. split; [reflexivity |].
  destruct (help_returns_2 Demo.plain (Demo.world "yes") ctx eq_refl) as [H _].
  rewrite H; [reflexivity | discriminate].
Defined.

(** ** White space and trimming *)

Section TrimFacts.

Local Open Scope nat_scope.

Lemma strip_prefix_spec t s r : Js.strip_prefix t s = Some r <-> s = t ++ r.
Proof.
  revert s. induction t as [|a t IH]; intros s; cbn.
  - split; [now intros [= ->] | now intros ->].
  - destruct s as [|b s]; [split; discriminate |].
    destruct (Ascii.eqb a b) eqn:Hab.
    + apply Ascii.eqb_eq in Hab. subst b. rewrite IH. split; [now intros -> | now intros [= ->]].
    + apply Ascii.eqb_neq in Hab. split; [discriminate | intros [= -> _]; congruence].
Qed.

Lemma strip_first_Some ts s r :
  Js.strip_first ts s = Some r -> exists t, In t ts /\ s = t ++ r.
Proof.
  induction ts as [|t ts IH]; cbn; [discriminate |].
  destruct (Js.strip_prefix t s) as [r'|] eqn:Ht.
  - intros [= ->]. apply strip_prefix_spec in Ht. eauto.
  - intros H. destruct (IH H) as (t' & Hin & Hs). eauto.
Qed.

Lemma strip_first_None ts s :
  Js.strip_first ts s = None <-> forall t, In t ts -> Js.strip_prefix t s = None.
Proof.
  induction ts as [|t ts IH]; cbn.
  - split; [intros _ t [] | reflexivity].
  - destruct (Js.strip_prefix t s) as [r'|] eqn:Ht.
    + split; [discriminate |]. intros H. specialize (H t (or_introl eq_refl)). congruence.
    + rewrite IH. split.
      * intros H t' [<- | Hin]; auto.
      * intros H t' Hin. apply H. now right.
Qed.

Lemma white_space_prefix_free : prefix_free_b Js.white_space = true.
Proof. vm_compute. reflexivity. Qed.

Lemma sapp_cons (x : ascii) (a b : string) : String x a ++ b = String x (a ++ b).
Proof. reflexivity. Qed.

Lemma sapp_nil_l (a : string) : EmptyString ++ a = a.
Proof. reflexivity. Qed.

Lemma sapp_assoc (a b c : string) : (a ++ b) ++ c = a ++ (b ++ c).
Proof.
  induction a as [|x a IH]; [reflexivity |]. now rewrite !sapp_cons, IH.
Qed.

Lemma sapp_nil_r (a : string) : a ++ EmptyString = a.
Proof. induction a as [|x a IH]; [reflexivity |]. now rewrite sapp_cons, IH. Qed.

Lemma slength_app (a b : string) :
  String.length (a ++ b) = (String.length a + String.length b)%nat.
Proof.
  induction a as [|x a IH]; [reflexivity |]. rewrite sapp_cons. cbn. now rewrite IH.
Qed.

Lemma sapp_inv_head (a b c : string) : a ++ b = a ++ c -> b = c.
Proof.
  induction a as [|x a IH]; [auto |]. rewrite !sapp_cons. intros [= H]. auto.
Qed.

Lemma sapp_comparable (t1 t2 r1 r2 : string) :
  t1 ++ r1 = t2 ++ r2 ->
  (exists u, t2 = t1 ++ u) \/ (exists u, t1 = t2 ++ u).
Proof.
  revert t2. induction t1 as [|a t1 IH]; intros t2 H.
  - left. now exists t2.
  - destruct t2 as [|b t2]; [right; now exists (String a t1) |].
    rewrite !sapp_cons in H. injection H as -> H.
    destruct (IH _ H) as [[u ->] | [u ->]]; [left | right]; now exists u.
Qed.

Lemma prefix_free_b_spec ts :
  prefix_free_b ts = true ->
  forall t1 t2 u, In t1 ts -> In t2 ts -> t2 = t1 ++ u -> u = EmptyString.
Proof.
  unfold prefix_free_b. rewrite forallb_forall. intros H t1 t2 u H1 H2 Hu.
  specialize (H t1 H1). rewrite forallb_forall in H. specialize (H t2 H2).
  apply strip_prefix_spec in Hu. rewrite Hu in H. now apply String.eqb_eq in H.
Qed.

Lemma white_space_unique t1 t2 r1 r2 :
  In t1 Js.white_space -> In t2 Js.white_space ->
  t1 ++ r1 = t2 ++ r2 -> r1 = r2.
Proof.
  intros H1 H2 H.
  destruct (sapp_comparable _ _ _ _ H) as [[u Hu] | [u Hu]].
  - pose proof (prefix_free_b_spec _ white_space_prefix_free _ _ _ H1 H2 Hu) as ->.
    rewrite sapp_nil_r in Hu. subst t2. now apply sapp_inv_head in H.
  - pose proof (prefix_free_b_spec _ white_space_prefix_free _ _ _ H2 H1 Hu) as ->.
    rewrite sapp_nil_r in Hu. subst t2. now apply sapp_inv_head in H.
Qed.

Lemma strip_first_app t r :
  In t Js.white_space -> Js.strip_first Js.white_space (t ++ r) = Some r.
Proof.
  intros Ht. destruct (Js.strip_first Js.white_space (t ++ r)) as [r'|] eqn:Hs.
  - apply strip_first_Some in Hs as (t' & Ht' & Heq).
    f_equal. symmetry. exact (white_space_unique t t' r r' Ht Ht' Heq).
  - rewrite strip_first_None in Hs. specialize (Hs t Ht).
    assert (Js.strip_prefix t (t ++ r) = Some r) by now apply strip_prefix_spec.
    congruence.
Qed.

Lemma white_space_nonempty t : In t Js.white_space -> (1 <= String.length t)%nat.
Proof.
  assert (H : forallb (fun t => (1 <=? String.length t)%nat) Js.white_space = true)
    by (vm_compute; reflexivity).
  rewrite forallb_forall in H. intros Ht. apply Nat.leb_le. auto.
Qed.

Lemma strip_first_empty : Js.strip_first Js.white_space EmptyString = None.
Proof. vm_compute. reflexivity. Qed.

Lemma trim_start_from_white n s :
  exists pre, white pre /\ s = pre ++ Js.trim_start_from n s.
Proof.
  revert s. induction n as [|n IH]; intros s; cbn [Js.trim_start_from].
  - exists EmptyString. split; [constructor | reflexivity].
  - destruct (Js.strip_first Js.white_space s) as [r|] eqn:Hs.
    + apply strip_first_Some in Hs as (t & Ht & ->).
      destruct (IH r) as (pre & Hpre & Hr).
      exists (t ++ pre). split; [now constructor |].
      rewrite sapp_assoc. now rewrite <- Hr.
    + exists EmptyString. split; [constructor | reflexivity].
Qed.

Lemma trim_start_from_stuck n s :
  (String.length s <= n)%nat ->
  Js.strip_first Js.white_space (Js.trim_start_from n s) = None.
Proof.
  revert s. induction n as [|n IH]; intros s Hlen; cbn [Js.trim_start_from].
  - destruct s; [apply strip_first_empty | cbn in Hlen; lia].
  - destruct (Js.strip_first Js.white_space s) as [r|] eqn:Hs; [| exact Hs].
    apply IH. apply strip_first_Some in Hs as (t & Ht & ->).
    rewrite slength_app in Hlen. pose proof (white_space_nonempty t Ht). lia.
Qed.

Lemma trim_start_from_app pre t n :
  white pre -> (String.length pre <= n)%nat ->
  Js.strip_first Js.white_space t = None ->
  Js.trim_start_from n (pre ++ t) = t.
Proof.
  intros Hpre. revert n. induction Hpre as [|tok s Htok Hs IH]; intros n Hlen Ht.
  - rewrite sapp_nil_l. destruct n; cbn [Js.trim_start_from]; [reflexivity | now rewrite Ht].
  - rewrite slength_app in Hlen. pose proof (white_space_nonempty tok Htok).
    destruct n as [|n]; [lia |]. cbn [Js.trim_start_from].
    rewrite sapp_assoc, strip_first_app by exact Htok.
    apply IH; [lia | exact Ht].
Qed.

Lemma trim_start_app pre t :
  white pre -> Js.strip_first Js.white_space t = None ->
  Js.trim_start (pre ++ t) = t.
Proof.
  intros Hpre Ht. unfold Js.trim_start. apply trim_start_from_app; auto.
  rewrite slength_app. lia.
Qed.

Lemma trim_start_white s :
  exists pre, white pre /\ s = pre ++ Js.trim_start s.
Proof. apply trim_start_from_white. Qed.

Lemma white_trim_start s : white s -> Js.trim_start s = EmptyString.
Proof.
  intros H. rewrite <- (sapp_nil_r s). apply trim_start_app; [exact H |].
  apply strip_first_empty.
Qed.

Lemma trim_end_white s :
  exists post, white post /\ s = Js.trim_end s ++ post.
Proof.
  induction s as [|c s IH].
  - exists EmptyString. split; [constructor | reflexivity].
  - cbn [Js.trim_end].
    destruct (Js.trim_start (String c s)) as [|c' s'] eqn:Hts.
    + exists (String c s). split; [| reflexivity].
      destruct (trim_start_white (String c s)) as (pre & Hpre & Heq).
      rewrite Hts, sapp_nil_r in Heq. now rewrite Heq.
    + destruct IH as (post & Hpost & Heq). exists post. split; [exact Hpost |].
      rewrite sapp_cons. now rewrite <- Heq.
Qed.

Lemma plain_stuck c s :
  plain c = true -> Js.strip_first Js.white_space (String c s) = None.
Proof.
  unfold plain. rewrite forallb_forall. intros H.
  apply strip_first_None. intros t Ht. specialize (H t Ht).
  destruct t as [|a t]; [discriminate |]. cbn.
  destruct (Ascii.eqb a c); [discriminate | reflexivity].
Qed.

Lemma stuck_trim_start s :
  Js.strip_first Js.white_space s = None -> Js.trim_start s = s.
Proof.
  intros H. unfold Js.trim_start.
  destruct (String.length s); cbn [Js.trim_start_from]; [reflexivity |].
  now rewrite H.
Qed.

Lemma trim_end_app core post :
  all_plain core = true -> white post -> Js.trim_end (core ++ post) = core.
Proof.
  intros Hcore Hpost. induction core as [|c core IH].
  - rewrite sapp_nil_l. destruct post as [|c s]; [reflexivity |].
    cbn [Js.trim_end]. now rewrite white_trim_start.
  - cbn [all_plain] in Hcore. apply andb_true_iff in Hcore as [Hc Hcore].
    rewrite sapp_cons. cbn [Js.trim_end].
    rewrite stuck_trim_start by now apply plain_stuck.
    now rewrite IH.
Qed.

Lemma trim_app pre core post :
  white pre -> white post -> all_plain core = true -> core <> EmptyString ->
  Js.trim (pre ++ core ++ post) = core.
Proof.
  intros Hpre Hpost Hcore Hne. unfold Js.trim.
  rewrite trim_start_app; [now apply trim_end_app | exact Hpre |].
  destruct core as [|c core]; [congruence |].
  cbn [all_plain] in Hcore. apply andb_true_iff in Hcore as [Hc _].
  rewrite sapp_cons. now apply plain_stuck.
Qed.

Lemma trim_white s :
  exists pre post, white pre /\ white post /\ s = pre ++ Js.trim s ++ post.
Proof.
  destruct (trim_start_white s) as (pre & Hpre & Hs).
  destruct (trim_end_white (Js.trim_start s)) as (post & Hpost & Ht).
  exists pre, post. repeat split; auto. unfold Js.trim. now rewrite <- Ht.
Qed.

Lemma lower_char_inv (c l : ascii) :
  In l ["y"; "e"; "s"]%char -> Js.lower_char c = l ->
  c = l \/ c = ascii_of_nat (nat_of_ascii l - 32).
Proof.
  intros [<- | [<- | [<- | []]]];
    destruct c as [[] [] [] [] [] [] [] []]; vm_compute; intros H;
    first [discriminate H | now left | now right].
Qed.

Lemma toLowerCase_yes s :
  Js.toLowerCase s = "y" \/ Js.toLowerCase s = "yes" <-> In s yes_variants.
Proof.
  split.
  - intros [H | H].
    + destruct s as [|c1 [|c2 s]]; try discriminate. cbn in H. injection H as H.
      destruct (lower_char_inv c1 "y") as [-> | ->]; cbn; auto.
    + destruct s as [|c1 [|c2 [|c3 [|c4 s]]]]; try discriminate.
      cbn in H. injection H as H1 H2 H3.
      destruct (lower_char_inv c1 "y") as [-> | ->]; cbn; auto;
      destruct (lower_char_inv c2 "e") as [-> | ->]; cbn; auto;
      destruct (lower_char_inv c3 "s") as [-> | ->]; cbn; auto 12.
  - cbn. intros H. repeat (destruct H as [<- | H]; [cbn; auto |]). destruct H.
Qed.

Lemma yes_variants_plain core :
  In core yes_variants -> all_plain core = true /\ core <> EmptyString.
Proof.
  cbn. intros H. repeat (destruct H as [<- | H]; [split; [vm_compute; reflexivity | discriminate] |]).
  destruct H.
Qed.

(** The comparison of [main] accepts exactly the affirmative chunks. *)
Lemma affirmative_iff chunk :
  (Js.toLowerCase (Js.trim chunk) = "y" \/ Js.toLowerCase (Js.trim chunk) = "yes")
  <-> affirmative_input chunk.
Proof.
  rewrite toLowerCase_yes. split.
  - intros Hin. destruct (trim_white chunk) as (pre & post & Hpre & Hpost & Heq).
    exists pre, (Js.trim chunk), post. auto.
  - intros (pre & core & post & -> & Hpre & Hpost & Hin).
    destruct (yes_variants_plain core Hin) as [Hplain Hne].
    now rewrite trim_app.
Qed.

(** The sequences that [trim] removes are the encodings of the white
    space of ECMAScript. *)
Lemma white_space_code_points : Js.white_space = map utf8 white_code_points.
Proof. vm_compute. reflexivity. Qed.

Lemma white_not_affirmative chunk : white chunk -> ~ affirmative_input chunk.
Proof.
  intros Hw (pre & core & post & Heq & Hpre & Hpost & Hin).
  destruct (yes_variants_plain core Hin) as [Hplain Hne].
  assert (Ht : Js.trim chunk = core) by (rewrite Heq; now apply trim_app).
  unfold Js.trim in Ht. rewrite (white_trim_start chunk Hw) in Ht. cbn in Ht.
  congruence.
Qed.

End TrimFacts.

(** ** The confirmation gate *)

(** C3, as stated, fails: the input y preceded by a space is not an exact
    match of y or yes, with or without regard to case, yet the gate takes
    it as a confirmation and the removal is requested. *)
Lemma confirmation_is_trimmed_cex :
  let w := Demo.world " y" in
  let ctx := Demo.args false false false ["b1"] in
  stdin_data w = Some " y" /\
  Js.toLowerCase " y" <> "y" /\
  Js.toLowerCase " y" <> "yes" /\
  removals (trace (main Demo.plain w ctx)) = ["b1"] /\
  result (main Demo.plain w ctx) = inr (ProcessExit 0).
Proof.
  intros w ctx. split; [reflexivity |]. repeat split; discriminate.
Qed.

(** C3 (amended): in every run that reaches the confirmation gate and
    reads the chunk [chunk] from standard input, the chunk is taken as a
    confirmation if and only if it is y or yes, in any mix of upper and
    lower case, with nothing but white space before and after it; then one
    removal request is issued per candidate. Every other chunk, the line
    that holds white space only included, makes [main] return 1 with no
    removal request issued. White space is that of [trim]: any sequence
    of the white space characters and line terminators of ECMAScript, in
    their UTF-8 encoding. *)
Theorem confirmation_gate (R : Render) (w : World) (ctx : Ctx) (cn : string)
    (D cands : list Deployment) (chunk : string) :
  candidates w ctx cn D cands -> cands <> [] ->
  opt_yes (parsed ctx) = false ->
  stdin_data w = Some chunk ->
  (affirmative_input chunk ->
   removals (trace (main R w ctx)) = map uid cands) /\
  (~ affirmative_input chunk ->
   result (main R w ctx) = inl 1 /\
   removals (trace (main R w ctx)) = [] /\
   prompts (trace (main R w ctx)) = [StdinResume]) /\
  (white chunk ->
   result (main R w ctx) = inl 1 /\ removals (trace (main R w ctx)) = []) /\
  (forall t, In t Js.white_space <->
             exists c, In c white_code_points /\ t = utf8 c).
Proof.
  intros Hc Hne Hyes Hchunk.
  assert (Hans : answer_of w = "y" \/ answer_of w = "yes" <-> affirmative_input chunk).
  { unfold answer_of. rewrite Hchunk. apply affirmative_iff. }
  assert (Hno : ~ affirmative_input chunk ->
                result (main R w ctx) = inl 1 /\
                removals (trace (main R w ctx)) = [] /\
                prompts (trace (main R w ctx)) = [StdinResume]).
  { intros Hno. apply (main_declined R w ctx cn D cands chunk); auto;
      intros H; apply Hno, Hans; auto. }
  split; [| split; [exact Hno | split]].
  - intros Haff. apply (main_confirmed R w ctx cn D cands); auto.
    right. now apply Hans.
  - intros Hw. destruct (Hno (white_not_affirmative chunk Hw)) as (Hres & Hrem & _).
    now split.
  - intros t. rewrite white_space_code_points, in_map_iff.
    split; intros (c & H1 & H2); exists c; auto.
Qed.

(** C3 (amended) holds of a run in which the operator answers no, and of
    one in which the answer is y followed by a no-break space and a line
    feed. *)
Lemma confirmation_gate_witness :
  let w := Demo.world "no" in
  let w' := Demo.world ("y" ++ Js.bytes [194; 160; 10]%nat) in
  let ctx := Demo.args false false false ["b1"] in
  candidates w ctx "me" [Demo.app1; Demo.app2; Demo.blog]
    [set_aliases Demo.blog (Some [])] /\
  opt_yes (parsed ctx) = false /\
  stdin_data w = Some "no" /\
  result (main Demo.plain w ctx) = inl 1 /\
  removals (trace (main Demo.plain w ctx)) = [] /\
  removals (trace (main Demo.plain w' ctx)) = ["b1"].
Proof.
  intros w w' ctx.
  assert (Hc : forall a, candidates (Demo.world a) ctx "me"
                 [Demo.app1; Demo.app2; Demo.blog]
                 [set_aliases Demo.blog (Some [])]).
  { intros a. split; [unfold fetched; repeat split; [discriminate | reflexivity..] |].
    exists [[]]. split; reflexivity. }
  split; [exact (Hc "no") | split; [reflexivity | split; [reflexivity |]]].
  destruct (confirmation_gate Demo.plain w ctx "me" _ _ "no" (Hc "no"))
    as (_ & Hno & _ & _); [discriminate | reflexivity | reflexivity |].
  destruct Hno as (Hres & Hrem & _).
  { intros H. apply affirmative_iff in H. vm_compute in H.
    destruct H as [H | H]; discriminate H. }
  split; [exact Hres | split; [exact Hrem |]].
  destruct (confirmation_gate Demo.plain w' ctx "me" _ _
              ("y" ++ Js.bytes [194; 160; 10]%nat)
              (Hc ("y" ++ Js.bytes [194; 160; 10]%nat)))
    as (Hyes & _); [discriminate | reflexivity | reflexivity |].
  apply Hyes. apply affirmative_iff. left. vm_compute. reflexivity.
Defined.

(** ** The removal batch *)

(** C2: in every run in which a non-empty candidate set is confirmed, the
    batch remover issues exactly one removal request per candidate, in the
    order of the candidates and before any of them settles, whether or not
    some fail; if any single request fails, the batch fails and [main]
    throws the reason of the request that failed first, whatever the other
    requests settled to; if none fails, the process exits with code 0. *)
Theorem batch_remove_all_or_nothing (R : Render) (w : World) (ctx : Ctx)
    (cn : string) (D cands : list Deployment) :
  candidates w ctx cn D cands -> cands <> [] -> confirmed w ctx ->
  let now := conn_of ctx in
  let hard := opt_hard (parsed ctx) in
  trace (batch_remove w now hard cands)
  = map (fun d => CallRemove now (uid d) hard) cands /\
  removals (trace (main R w ctx)) = map uid cands /\
  (forall k d e,
     cands !! k = Some d -> outcome (remove w now k (uid d) hard) = inr e ->
     exists k' d' e',
       cands !! k' = Some d' /\
       outcome (remove w now k' (uid d') hard) = inr e' /\
       (forall j dj ej, cands !! j = Some dj ->
          outcome (remove w now j (uid dj) hard) = inr ej ->
          (settled_at (remove w now k' (uid d') hard)
           <= settled_at (remove w now j (uid dj) hard))%nat) /\
       result (batch_remove w now hard cands) = inr (Thrown e') /\
       result (main R w ctx) = inr (Thrown e')) /\
  ((forall k d, cands !! k = Some d ->
      exists v, outcome (remove w now k (uid d) hard) = inl v) ->
   result (main R w ctx) = inr (ProcessExit 0)).
Proof.
  intros Hc Hne Hconf now hard.
  destruct (main_confirmed R w ctx cn D cands Hc Hne Hconf) as [Hrem Hres].
  rewrite orb_false_r in Hres. fold now hard in Hres.
  split; [apply batch_remove_trace | split; [exact Hrem | split]].
  - intros k d e Hk He.
    destruct (fan_out_rejects
                (fun k depl => (CallRemove now (uid depl) hard,
                                remove w now k (uid depl) hard))
                cands k d e Hk He) as [x Hx].
    pose proof Hx as Hx'.
    apply fan_out_inr in Hx' as (k' & d' & e' & -> & Hk' & He' & Hmin).
    cbn [snd] in He', Hmin.
    exists k', d', e'. unfold batch_remove in *. rewrite Hres, Hx. auto.
  - intros Hall.
    destruct (fan_out_fulfilled
                (fun k depl => (CallRemove now (uid depl) hard,
                                remove w now k (uid depl) hard))
                cands Hall) as [vs Hvs].
    unfold batch_remove in Hres. now rewrite Hres, Hvs.
Qed.

(** C2 holds of a run in which the removal of a1 fails after that of b1
    succeeded. *)
Lemma batch_remove_all_or_nothing_witness :
  let w := Demo.flaky "yes" in
  let ctx := Demo.args false true false ["a1"; "b1"] in
  let cands := [set_aliases Demo.app1 (Some []); set_aliases Demo.blog (Some [])] in
  candidates w ctx "me" [Demo.app1; Demo.app2; Demo.blog] cands /\
  confirmed w ctx /\
  outcome (remove w (conn_of ctx) 1 "b1" false) = inl tt /\
  outcome (remove w (conn_of ctx) 0 "a1" false) = inr Demo.network_down /\
  removals (trace (main Demo.plain w ctx)) = ["a1"; "b1"] /\
  exists e, result (main Demo.plain w ctx) = inr (Thrown e).
Proof.
  intros w ctx cands.
  assert (Hc : candidates w ctx "me" [Demo.app1; Demo.app2; Demo.blog] cands).
  { split; [unfold fetched; repeat split; [discriminate | reflexivity..] |].
    exists [[]; []]. split; reflexivity. }
  assert (Hconf : confirmed w ctx) by (left; reflexivity).
  split; [exact Hc | split; [exact Hconf | split; [reflexivity | split; [reflexivity |]]]].
  destruct (batch_remove_all_or_nothing Demo.plain w ctx "me" _ cands Hc)
    as (_ & Hrem & Hfail & _); [discriminate | exact Hconf |].
  split; [exact Hrem |].
  destruct (Hfail 0%nat (set_aliases Demo.app1 (Some [])) Demo.network_down
              eq_refl eq_refl) as (k' & d' & e' & _ & _ & _ & _ & Hmain).
  exists e'. exact Hmain.
Defined.

(** ** No duplicates *)

Lemma occurrences_NoDup (u : string) (l : list string) :
  NoDup l -> In u l -> occurrences u l = 1%nat.
Proof.
  unfold occurrences. induction 1 as [|x l Hx Hl IH]; intros Hin; [destruct Hin |].
  simpl. destruct (String.eqb u x) eqn:Hux.
  - apply String.eqb_eq in Hux. subst x. simpl. f_equal.
    clear IH Hin Hl. induction l as [|y l IHl]; [reflexivity |].
    simpl. destruct (String.eqb u y) eqn:Huy.
    + apply String.eqb_eq in Huy. subst y. exfalso. apply Hx. now left.
    + apply IHl. intros Hu. apply Hx. now right.
  - apply String.eqb_neq in Hux. destruct Hin as [-> | Hin]; [congruence | auto].
Qed.

Lemma count_uid_occurrences (u : string) (l : list Deployment) :
  count_uid u l = occurrences u (map uid l).
Proof.
  unfold count_uid, occurrences. induction l as [|d l IH]; [reflexivity |].
  simpl. rewrite (String.eqb_sym u (uid d)).
  destruct (String.eqb (uid d) u); simpl; now rewrite IH.
Qed.

Lemma NoDup_map_uid (l : list Deployment) : NoDup (map uid l) -> NoDup l.
Proof. apply NoDup_fmap_1. Qed.

(** C6: for every deployment list [D] whose uids are pairwise distinct
    and every identifier list [I], the resolver returns only deployments
    of [D] and none twice: the uids of its result are pairwise distinct.
    In particular a deployment of which both the uid and the name are
    among the identifiers appears exactly once among the matches; and in
    every run on [D] and [I] no uid receives two removal requests, while
    in a confirmed run each candidate receives exactly one, as does,
    outside safe mode, each deployment named by uid and name. *)
Theorem resolve_no_duplicates (normalize : string -> string)
    (D : list Deployment) (I : list string) :
  NoDup (map uid D) ->
  let ms := resolve normalize D I in
  (forall d, In d ms -> In d D) /\
  NoDup (map uid ms) /\
  NoDup ms /\
  (forall d, In d D -> In (uid d) I -> In (name d) I ->
     count_uid (uid d) ms = 1%nat) /\
  forall R w ctx cn cands,
    normalizeURL w = normalize -> ids_of ctx = I ->
    candidates w ctx cn D cands ->
    NoDup (map uid cands) /\
    NoDup (removals (trace (main R w ctx))) /\
    (confirmed w ctx ->
     forall c, In c cands ->
       count_uid (uid c) cands = 1%nat /\
       occurrences (uid c) (removals (trace (main R w ctx))) = 1%nat) /\
    (confirmed w ctx -> opt_safe (parsed ctx) = false ->
     forall d, In d D -> In (uid d) I -> In (name d) I ->
       count_uid (uid d) cands = 1%nat /\
       occurrences (uid d) (removals (trace (main R w ctx))) = 1%nat).
Proof.
  intros HD ms.
  assert (Hms : NoDup (map uid ms)).
  { eapply sublist_NoDup; [exact HD | apply resolve_uids_sublist]. }
  assert (Hin : forall d, In d D -> In (uid d) I -> In d ms).
  { intros d Hd Hu. apply resolve_In. split; [exact Hd |].
    exists (uid d). auto. }
  split; [intros d Hd; now apply resolve_In in Hd | split; [exact Hms |]].
  split; [now apply NoDup_map_uid | split].
  { intros d Hd Hu _. rewrite count_uid_occurrences.
    apply occurrences_NoDup; [exact Hms |]. apply in_map. auto. }
  intros R w ctx cn cands Hnorm Hids Hc.
  destruct (candidates_facts R w ctx cn D cands Hc) as (_ & _ & Hsub & Hall).
  rewrite Hnorm, Hids in Hsub, Hall. fold ms in Hsub, Hall.
  assert (Hcands : NoDup (map uid cands)) by (eapply sublist_NoDup; [exact Hms | exact Hsub]).
  assert (Hrem : confirmed w ctx ->
                 removals (trace (main R w ctx)) = map uid cands \/ cands = []).
  { intros Hconf. destruct cands as [|c cands]; [now right | left].
    now apply (main_confirmed R w ctx cn D (c :: cands)). }
  assert (Hcount : confirmed w ctx -> forall c, In c cands ->
            count_uid (uid c) cands = 1%nat /\
            occurrences (uid c) (removals (trace (main R w ctx))) = 1%nat).
  { intros Hconf c Hcin.
    destruct (Hrem Hconf) as [-> | ->]; [| destruct Hcin].
    rewrite count_uid_occurrences.
    split; apply occurrences_NoDup; auto using in_map. }
  split; [exact Hcands | split; [| split; [exact Hcount |]]].
  - destruct cands as [|c cands].
    + rewrite (main_nothing R w ctx cn D Hc). cbn [trace fst].
      rewrite removals_app, removals_probed_trace. constructor.
    + destruct (opt_yes (parsed ctx)) eqn:Hyes.
      { destruct (Hrem (or_introl Hyes)) as [-> | ?]; [exact Hcands | discriminate]. }
      destruct (String.eqb (answer_of w) "y") eqn:Hy.
      { apply String.eqb_eq in Hy.
        destruct (Hrem (or_intror (or_introl Hy))) as [-> | ?];
          [exact Hcands | discriminate]. }
      destruct (String.eqb (answer_of w) "yes") eqn:Hy'.
      { apply String.eqb_eq in Hy'.
        destruct (Hrem (or_intror (or_intror Hy'))) as [-> | ?];
          [exact Hcands | discriminate]. }
      apply String.eqb_neq in Hy, Hy'.
      destruct (stdin_data w) as [chunk|] eqn:Hchunk.
      * destruct (main_declined R w ctx cn D (c :: cands) chunk Hc
                    ltac:(discriminate) Hyes Hchunk Hy Hy') as (_ & -> & _).
        constructor.
      * destruct (main_unanswered R w ctx cn D (c :: cands) Hc
                    ltac:(discriminate) Hyes Hchunk) as (_ & -> & _).
        constructor.
  - intros Hconf Hsafe d Hd Hu Hn.
    specialize (Hall Hsafe).
    assert (Hdu : In (uid d) (map uid cands)).
    { rewrite Hall. apply in_map. auto. }
    apply in_map_iff in Hdu as (c & Hcu & Hcin).
    rewrite <- Hcu. now apply Hcount.
Qed.

(** C6 holds of a run in which the uid and the name of one deployment are
    both given. *)
Lemma resolve_no_duplicates_witness :
  let w := Demo.world "yes" in
  let ctx := Demo.args false true false ["b1"; "blog"] in
  let D := [Demo.app1; Demo.app2; Demo.blog] in
  NoDup (map uid D) /\
  count_uid "b1" (resolve (normalizeURL w) D (ids_of ctx)) = 1%nat /\
  occurrences "b1" (removals (trace (main Demo.plain w ctx))) = 1%nat.
Proof.
  intros w ctx D.
  assert (HD : NoDup (map uid D)).
  { repeat constructor; cbn; rewrite ?elem_of_cons, ?elem_of_nil;
      intuition discriminate. }
  split; [exact HD |].
  destruct (resolve_no_duplicates (normalizeURL w) D (ids_of ctx) HD)
    as (_ & _ & _ & Honce & Hrun).
  split.
  - apply (Honce Demo.blog); cbn; auto.
  - assert (Hc : candidates w ctx "me" D [set_aliases Demo.blog (Some [])]).
    { split; [unfold fetched; repeat split; [discriminate | reflexivity..] |].
      exists [[]]. split; reflexivity. }
    destruct (Hrun Demo.plain w ctx "me" _ eq_refl eq_refl Hc) as (_ & _ & _ & Hsafe).
    apply (Hsafe (or_introl eq_refl) eq_refl Demo.blog); cbn; auto.
Defined.

(** ** The typed errors *)

Section ErrorFacts.

Import Errors.


(** The loop of lines 22 to 27 copies every field of the body but
    message, and defines no field for the name __proto__. *)
Lemma copy_fields_lookup (this body : JsObject) (k : string) :
  map_fold (fun field v (this : JsObject) =>
              if negb (String.eqb field "message")
              then assign this field v else this) this body !! k
  = if String.eqb k "message" || String.eqb k "__proto__" then this !! k
    else match body !! k with Some v => Some v | None => this !! k end.
Proof.
  apply (map_fold_weak_ind
           (fun (r : JsObject) (m : JsObject) =>
              r !! k = if String.eqb k "message" || String.eqb k "__proto__"
                       then this !! k
                       else match m !! k with Some v => Some v | None => this !! k end)).
  - rewrite lookup_empty.
    now destruct (String.eqb k "message" || String.eqb k "__proto__").
  - intros i x m r Hi IH.
    destruct (decide (i = k)) as [-> | Hik].
    + rewrite lookup_insert_eq. unfold assign.
      destruct (String.eqb k "message") eqn:Hm; cbn [negb orb] in IH |- *;
        [exact IH |].
      destruct (String.eqb k "__proto__") eqn:Hp; [exact IH |].
      apply lookup_insert_eq.
    + rewrite lookup_insert_ne by exact Hik.
      assert (Hsame : (if negb (String.eqb i "message") then assign r i x else r) !! k
                      = r !! k).
      { unfold assign.
        destruct (negb (String.eqb i "message")); [| reflexivity].
        destruct (String.eqb i "__proto__"); [reflexivity |].
        now apply lookup_insert_ne. }
      rewrite Hsame. exact IH.
Qed.


(** The fields of an [APIError] other than retryAfter: those of the
    body, message and __proto__ apart, then those that the constructor
    sets. *)
Lemma APIError_lookup message response body (k : string) :
  k <> "retryAfter" ->
  APIError message response body !! k
  = if String.eqb k "message" || String.eqb k "__proto__"
    then own_fields message response !! k
    else match body ≫= (fun b => b !! k) with
         | Some v => Some v
         | None => own_fields message response !! k
         end.
Proof.
  intros Hk. unfold APIError.
  assert (Hcopy : forall this : JsObject,
            match body with
            | Some body =>
                map_fold (fun field v (this : JsObject) =>
                            if negb (String.eqb field "message")
                            then assign this field v else this) this body
            | None => this
            end !! k
            = if String.eqb k "message" || String.eqb k "__proto__" then this !! k
              else match body ≫= (fun b => b !! k) with
                   | Some v => Some v
                   | None => this !! k
                   end).
  { intros this. destruct body as [b|]; cbn.
    - apply copy_fields_lookup.
    - now destruct (String.eqb k "message" || String.eqb k "__proto__"). }
  cbv zeta.
  destruct (status response =? 429);
    [destruct (headers_get response "Retry-After") as [h|];
     [destruct (negb (String.eqb h EmptyString)) |] |];
    rewrite ?(lookup_insert_ne _ "retryAfter" k) by congruence;
    apply Hcopy.
Qed.


End ErrorFacts.




(** ** The end-to-end scenarios of the specification *)

(** Scenario A: one deployment matched by name and confirmed with yes is
    removed. *)
Example scenario_confirmed :
  let m := main Demo.plain (Demo.world "yes") (Demo.args false false false ["blog"]) in
  removals (trace m) = ["b1"] /\ result m = inr (ProcessExit 0) /\
  In (OutputSuccess "1 deployment removed [1s]") (trace m).
Proof. repeat split. cbn. repeat (first [left; reflexivity | right]). Qed.

(** Scenario B: in safe mode an aliased deployment is not a candidate;
    the run returns 0 with no removal request. *)
Example scenario_safe_mode :
  main Demo.plain (Demo.world "yes") (Demo.args true false false ["a2"])
  = ([ CallGetScope (conn_of (Demo.args true false false ["a2"]));
       WaitStart ("Fetching deployment(s) " ++ Js.quoted "a2" ++ " in me");
       CallList (conn_of (Demo.args true false false ["a2"]));
       CallGetAliases (conn_of (Demo.args true false false ["a2"])) "a2";
       WaitCancel;
       OutputLog ("Could not find unaliased deployments matching "
                  ++ Js.quoted "a2" ++ ". Run now ls to list.") ],
     inl 0).
Proof. reflexivity. Qed.

(** Scenario C: an identifier that matches nothing. *)
Example scenario_no_match :
  let m := main Demo.plain (Demo.world "yes") (Demo.args false false false ["missing-id"]) in
  result m = inl 0 /\ removals (trace m) = [] /\
  In (OutputLog ("Could not find any deployments matching "
                 ++ Js.quoted "missing-id" ++ ". Run now ls to list.")) (trace m).
Proof. repeat split. cbn. repeat (first [left; reflexivity | right]). Qed.

(** Scenario D: the operator answers no. *)
Example scenario_declined :
  let m := main Demo.plain (Demo.world "no") (Demo.args false false false ["app"]) in
  result m = inl 1 /\ removals (trace m) = [] /\
  In (OutputLog "Aborted") (trace m).
Proof. repeat split. cbn. repeat (first [left; reflexivity | right]). Qed.

(** The answer is read with its line terminator and in any case. *)
Example scenario_answer_with_newline :
  let m := main Demo.plain (Demo.world ("YES" ++ Js.nl))
             (Demo.args false false false ["app"]) in
  removals (trace m) = ["a1"; "a2"] /\ result m = inr (ProcessExit 0).
Proof. repeat split. Qed.

(** An authorization failure of [getScope] is reported and gives 1; any
    other failure of it propagates. *)
Example scenario_not_authorized :
  let w := {| normalizeURL := UrlSpec.normalizeURL;
              getScope := fun _ => inr (Errors.InvalidToken);
              list_deployments := fun _ => inl [];
              getAliases := fun _ k _ => Demo.fulfilled k [];
              remove := fun _ k _ _ => Demo.fulfilled k tt;
              stdin_data := None;
              clock := fun _ => 0 |} in
  main Demo.plain w (Demo.args false false false ["app"])
  = ([ CallGetScope (conn_of (Demo.args false false false ["app"]));
       OutputError (VStr "The specified token is not valid") ],
     inl 1).
Proof. reflexivity. Qed.

(** * Further properties of the command *)

(** ** Every run of [main] *)

Section MainCases.

Variable R : Render.
Variable w : World.

(** [getScope] fails: an authorization failure is reported, any other
    error propagates. *)
Lemma main_scope_failed ctx err :
  ids_of ctx <> [] -> help_requested (parsed ctx) (ids_of ctx) = false ->
  getScope w (conn_of ctx) = inr err ->
  main R w ctx
  = (if has_code err "not_authorized"
     then ([CallGetScope (conn_of ctx); OutputError (field err "message")], inl 1)
     else ([CallGetScope (conn_of ctx)], inr (Thrown err))).
Proof.
  intros Hids Hhelp Hscope.
  unfold main. rewrite (length_ltb_1 _ Hids), Hhelp, Hscope.
  cbn [bind ret emit await throw try_catch app].
  destruct (has_code err "not_authorized"); reflexivity.
Qed.

(** [now.list] fails: the spinner is cancelled and the error propagates. *)
Lemma main_list_failed ctx cn err :
  ids_of ctx <> [] -> help_requested (parsed ctx) (ids_of ctx) = false ->
  getScope w (conn_of ctx) = inl cn ->
  list_deployments w (conn_of ctx) = inr err ->
  main R w ctx
  = ([ CallGetScope (conn_of ctx);
       WaitStart ("Fetching deployment(s) "
                  ++ Js.join " " (map Js.quoted (ids_of ctx))
                  ++ " in " ++ bold R cn);
       CallList (conn_of ctx);
       WaitCancel ], inr (Thrown err)).
Proof.
  intros Hids Hhelp Hscope Hlist.
  unfold main. rewrite (length_ltb_1 _ Hids), Hhelp, Hscope, Hlist.
  reflexivity.
Qed.

Lemma main_trace_candidates ctx cn D cands :
  candidates w ctx cn D cands ->
  trace (main R w ctx)
  = (probed_trace R ctx cn (resolve (normalizeURL w) D (ids_of ctx))
     ++ trace (conclude R w (parsed ctx) (ids_of ctx) (conn_of ctx) cn
                 (clock w FindStart) cands))%list.
Proof.
  intros Hc. destruct (candidates_facts R w ctx cn D cands Hc) as [-> _].
  rewrite function_unfold, bind_unfold. reflexivity.
Qed.

(** The case analysis of a run. *)
Lemma main_cases ctx : main_case R w ctx.
Proof.
  destruct (ids_of ctx) as [|id0 ids'] eqn:Hids.
  { apply case_usage; [exact Hids |]. unfold main. rewrite Hids. reflexivity. }
  assert (Hne : ids_of ctx <> []) by (rewrite Hids; discriminate).
  clear id0 ids' Hids.
  destruct (help_requested (parsed ctx) (ids_of ctx)) eqn:Hhelp.
  { apply case_help; [exact Hne | exact Hhelp |].
    unfold main. rewrite (length_ltb_1 _ Hne), Hhelp. reflexivity. }
  destruct (getScope w (conn_of ctx)) as [cn|err] eqn:Hscope.
  2:{ eapply case_scope_failed; eauto using main_scope_failed. }
  destruct (list_deployments w (conn_of ctx)) as [D|err] eqn:Hlist.
  2:{ eapply case_list_failed; eauto using main_list_failed. }
  assert (Hfetched : fetched w ctx cn D) by (repeat split; assumption).
  destruct (result (probe_aliases w (conn_of ctx)
                      (resolve (normalizeURL w) D (ids_of ctx)))) as [als|x] eqn:Hprobe.
  2:{ pose proof Hprobe as Hp. unfold probe_aliases in Hp.
      apply fan_out_inr in Hp as (k & d & e & -> & Hk & He & _). cbn [snd] in He.
      eapply case_probe_failed; eauto using main_probe_failed. }
  destruct (filtered_candidates w _ (opt_safe (parsed ctx)) _ _ Hprobe)
    as (cands & Hfilter & _).
  assert (Hc : candidates w ctx cn D cands) by (split; eauto).
  apply (case_candidates R w ctx cn D cands Hc (main_trace_candidates _ _ _ _ Hc)).
  destruct cands as [|c cands].
  { left. rewrite (main_nothing R w ctx cn D Hc). cbn [result trace fst snd].
    rewrite removals_app, prompts_app, removals_probed_trace, prompts_probed_trace.
    now repeat split. }
  right.
  assert (Hcne : c :: cands <> []) by discriminate.
  assert (Hconfirmed : confirmed w ctx ->
            removals (trace (main R w ctx)) = map uid (c :: cands) /\
            result (main R w ctx)
            = match result (batch_remove w (conn_of ctx) (opt_hard (parsed ctx))
                              (c :: cands)) with
              | inl _ => inr (ProcessExit 0)
              | inr x => inr x
              end).
  { intros Hconf.
    destruct (main_confirmed R w ctx cn D _ Hc Hcne Hconf) as [Hrem Hres].
    rewrite orb_false_r in Hres. now split. }
  destruct (opt_yes (parsed ctx)) eqn:Hyes.
  { right. right. split; [exact Hcne |].
    split; [now left | apply Hconfirmed; now left]. }
  destruct (String.eqb (answer_of w) "y") eqn:Hy.
  { apply String.eqb_eq in Hy. right. right. split; [exact Hcne |].
    split; [right; now left | apply Hconfirmed; right; now left]. }
  destruct (String.eqb (answer_of w) "yes") eqn:Hy'.
  { apply String.eqb_eq in Hy'. right. right. split; [exact Hcne |].
    split; [right; now right | apply Hconfirmed; right; now right]. }
  apply String.eqb_neq in Hy, Hy'.
  destruct (stdin_data w) as [chunk|] eqn:Hchunk.
  - left. split; [exact Hcne | split; [unfold declined; eauto |]].
    now apply (main_declined R w ctx cn D (c :: cands) chunk).
  - right. left. split; [exact Hcne | split; [now split |]].
    now apply (main_unanswered R w ctx cn D (c :: cands)).
Qed.

End MainCases.

(** ** What the events of a run can be *)

Section EventFacts.

Variable P : Event -> Prop.

Lemma Forall_bind {A B} (m : M A) (k : A -> M B) :
  Forall P (trace m) -> (forall a, Forall P (trace (k a))) ->
  Forall P (trace (bind m k)).
Proof.
  intros Hm Hk. rewrite bind_unfold.
  destruct (result m) as [a|x]; cbn [trace fst]; [| exact Hm].
  apply Forall_app. split; [exact Hm | apply Hk].
Qed.

Lemma Forall_try_catch {A} (m : M A) (h : JsObject -> M A) :
  Forall P (trace m) -> (forall e, Forall P (trace (h e))) ->
  Forall P (trace (try_catch m h)).
Proof.
  intros Hm Hh. destruct m as [t [a|[e|c|v|]]]; cbn [try_catch]; try exact Hm.
  specialize (Hh e). destruct (h e) as [t' r]. cbn [trace fst] in *.
  apply Forall_app. now split.
Qed.

Lemma Forall_function (m : M Z) :
  Forall P (trace m) -> Forall P (trace (function m)).
Proof. now rewrite function_unfold. Qed.

Lemma Forall_emit (ev : Event) : P ev -> Forall P (trace (emit ev)).
Proof. intros H. cbn. now repeat constructor. Qed.

Lemma Forall_for_each {A} (l : list A) (body : A -> M unit) :
  (forall x, In x l -> Forall P (trace (body x))) ->
  Forall P (trace (for_each l body)).
Proof.
  induction l as [|x l IH]; intros Hbody; [constructor |].
  cbn [for_each]. apply Forall_bind; [apply Hbody; now left |].
  intros _. apply IH. intros y Hy. apply Hbody. now right.
Qed.

Lemma Forall_fan_out {A B} (call : nat -> A -> Event * Settled B) (l : list A) :
  (forall k x, In x l -> P (fst (call k x))) ->
  Forall P (trace (fan_out call l)).
Proof.
  intros Hcall. unfold fan_out, trace. cbn [fst].
  revert call Hcall. induction l as [|x l IH]; intros call Hcall; [constructor |].
  cbn [imap map]. constructor; [apply Hcall; now left |].
  apply IH. intros k y Hy. apply Hcall. now right.
Qed.

Lemma safety_filter_from_silent (safe : bool) als i ms :
  trace (safety_filter_from safe als i ms) = [].
Proof.
  revert i. induction ms as [|m ms IH]; intros i; [reflexivity |].
  cbn [safety_filter_from].
  assert (Hkeep : trace (let* rest' := safety_filter_from safe als (S i) ms in
                         ret (set_aliases m (als !! i) :: rest')) = []).
  { rewrite bind_unfold, IH.
    now destruct (result (safety_filter_from safe als (S i) ms)). }
  destruct safe; [| exact Hkeep].
  destruct (als !! i) as [a|]; [| reflexivity].
  destruct (0 <? length a)%nat; [apply IH | exact Hkeep].
Qed.

End EventFacts.

(** Splits a statement on every event of a computation into one
    statement per event that it emits. *)
Ltac each_event :=
  repeat match goal with
    | |- Forall _ (trace (function _)) => apply Forall_function
    | |- Forall _ (trace (bind _ _)) => apply Forall_bind; [| intros ?]
    | |- Forall _ (trace (try_catch _ _)) => apply Forall_try_catch; [| intros ?]
    | |- Forall _ (trace (for_each _ _)) => apply Forall_for_each; intros ? ?
    | |- Forall _ (trace (fan_out _ _)) => apply Forall_fan_out; intros ? ? ?
    | |- Forall _ (trace (emit _)) => apply Forall_emit
    | |- Forall _ (trace (if ?b then _ else _)) => destruct b
    | |- Forall _ (trace (match ?x with Some _ => _ | None => _ end)) => destruct x
    | |- Forall _ (trace (await ?r)) => destruct r; cbn [await]
    | |- Forall _ (trace (ret _)) => constructor
    | |- Forall _ (trace (throw _)) => constructor
    | |- Forall _ (trace (return_ _)) => constructor
    | |- Forall _ (trace (exit _)) => constructor
    | |- Forall _ (trace (safety_filter _ _ _)) =>
        unfold safety_filter; rewrite safety_filter_from_silent; constructor
    end.

Section RunEvents.

Variable R : Render.
Variable w : World.
Variable P : Event -> Prop.

(** The events of [conclude] are logs, prints, warnings, the two calls on
    standard input, the closing of the client and removal requests for
    candidates, with the hard flag of the arguments. *)
Lemma conclude_events argv ids now cn fs cands :
  (forall s, P (OutputLog s)) -> (forall s, P (OutputPrint s)) ->
  (forall s, P (OutputWarn s)) -> (forall s, P (OutputSuccess s)) ->
  (forall s, P (ConsoleLog s)) -> P StdinResume -> P StdinPause ->
  P (CallClose now) ->
  (forall d, In d cands -> P (CallRemove now (uid d) (opt_hard argv))) ->
  Forall P (trace (conclude R w argv ids now cn fs cands)).
Proof.
  intros Hlog Hprint Hwarn Hsucc Hcons Hres Hpause Hclose Hrem.
  unfold conclude, confirm, remove_all, readConfirmation, batch_remove.
  rewrite !orb_false_r.
  each_event; cbn [fst]; auto.
Qed.

(** The events of [main]: those of [conclude], errors, the usage, the
    spinner and the calls that fetch the scope, the deployments and the
    aliases. *)
Lemma main_events ctx :
  (forall v, P (OutputError v)) ->
  (forall s, P (OutputLog s)) -> (forall s, P (OutputPrint s)) ->
  (forall s, P (OutputWarn s)) -> (forall s, P (OutputSuccess s)) ->
  (forall s, P (ConsoleLog s)) -> P StdinResume -> P StdinPause ->
  (forall s, P (WaitStart s)) -> P WaitCancel ->
  P (CallGetScope (conn_of ctx)) -> P (CallList (conn_of ctx)) ->
  (forall u, P (CallGetAliases (conn_of ctx) u)) ->
  P (CallClose (conn_of ctx)) ->
  (forall u, P (CallRemove (conn_of ctx) u (opt_hard (parsed ctx)))) ->
  Forall P (trace (main R w ctx)).
Proof.
  intros Herr Hlog Hprint Hwarn Hsucc Hcons Hres Hpause Hstart Hcancel
    Hscope Hlist Hprobe Hclose Hrem.
  unfold main, help, probe_aliases.
  each_event; cbn [fst]; auto.
  apply conclude_events; auto.
Qed.

End RunEvents.

(** ** What is removed, and when *)

Section RemovalFacts.

Variable R : Render.
Variable w : World.

(** Where a candidate comes from: a match, with the alias list that its
    own probe was fulfilled with, which is empty in safe mode. *)
Lemma candidates_origin ctx cn D cands :
  candidates w ctx cn D cands ->
  forall c, In c cands ->
    exists i d a,
      resolve (normalizeURL w) D (ids_of ctx) !! i = Some d /\
      outcome (getAliases w (conn_of ctx) i (uid d)) = inl a /\
      c = set_aliases d (Some a) /\
      (opt_safe (parsed ctx) = true -> a = []).
Proof.
  intros (_ & als & Hprobe & Hfilter) c Hc.
  pose proof (probe_aliases_zip _ _ _ _ Hprobe) as (Hfst & Hsnd & Hzip).
  pose proof (safety_filter_from_aligned (opt_safe (parsed ctx)) []
                (zip (resolve (normalizeURL w) D (ids_of ctx)) als)) as Hexact.
  cbn [app length] in Hexact. rewrite Hfst, Hsnd in Hexact.
  unfold safety_filter in Hfilter. rewrite Hfilter in Hexact.
  unfold ret in Hexact. injection Hexact as Hcands. subst cands.
  apply in_map_iff in Hc as ([d a] & <- & Hin).
  apply In_filtered_zip in Hin as [Hin Hsafe].
  destruct (Hzip d a Hin) as (i & Hd & _ & Hout).
  exists i, d, a. repeat split; auto.
Qed.

(** The removal requests of a run: none, or one per candidate of a
    confirmed run. *)
Lemma main_removals ctx :
  removals (trace (main R w ctx)) = [] \/
  exists cn D cands,
    candidates w ctx cn D cands /\ cands <> [] /\ confirmed w ctx /\
    removals (trace (main R w ctx)) = map uid cands /\
    result (main R w ctx)
    = match result (batch_remove w (conn_of ctx) (opt_hard (parsed ctx)) cands) with
      | inl _ => inr (ProcessExit 0)
      | inr x => inr x
      end.
Proof.
  destruct (main_cases R w ctx)
    as [? -> | ? ? -> | err ? ? ? -> | cn err ? ? ? ? -> | cn D k d e ? ? ? ->
        | cn D cands Hc Htrace
            [(_ & _ & Hrem & _)
            | [(_ & _ & _ & Hrem & _) | [(_ & _ & _ & Hrem & _) | Hconf]]]];
    try (left; reflexivity); try (left; exact Hrem).
  - left. now destruct (has_code err "not_authorized").
  - left. apply removals_probed_trace.
  - right. destruct Hconf as (Hne & Hconf & Hrem & Hres). eauto 10.
Qed.

End RemovalFacts.

(** X1: in a world in which every request to a collaborator settles, a
    run of [main] ends in one of six ways: it returns 0, 1 or 2, it exits
    the process with code 0 after the removal, it throws, or it never
    ends. What it throws is the rejection of one of its four
    collaborators: [getScope], [now.list], an alias probe or a removal
    request. It returns 2 only when help is requested. It never ends
    exactly when there are candidates, the confirmation is asked for and
    standard input ends without data: then the promise of
    [readConfirmation] is never resolved, and no removal is requested. *)
Theorem main_outcomes (R : Render) (w : World) (ctx : Ctx) :
  (result (main R w ctx) = inl 0 \/
   result (main R w ctx) = inl 1 \/
   (result (main R w ctx) = inl 2 /\
    help_requested (parsed ctx) (ids_of ctx) = true) \/
   result (main R w ctx) = inr (ProcessExit 0) \/
   (result (main R w ctx) = inr Pending /\
    removals (trace (main R w ctx)) = [] /\
    prompts (trace (main R w ctx)) = [StdinResume]) \/
   exists e,
     result (main R w ctx) = inr (Thrown e) /\
     (getScope w (conn_of ctx) = inr e \/
      list_deployments w (conn_of ctx) = inr e \/
      (exists k u, outcome (getAliases w (conn_of ctx) k u) = inr e) \/
      (exists k u, outcome (remove w (conn_of ctx) k u (opt_hard (parsed ctx))) = inr e))) /\
  (result (main R w ctx) = inr Pending <->
   opt_yes (parsed ctx) = false /\ stdin_data w = None /\
   exists cn D cands, candidates w ctx cn D cands /\ cands <> []).
Proof.
  destruct (main_cases R w ctx)
    as [? Hmain | ? Hhelp Hmain | err ? ? Hscope Hmain | cn err ? ? Hsc Hlist Hmain
        | cn D k d e Hf Hk He Hmain
        | cn D cands Hc Htrace
            [(Hnil & Hres & _)
            | [(_ & Hdecl & Hres & _)
              | [(Hne & (Hyes & Hnone) & Hres & Hrem & Hpr) | Hconf]]]].
  - rewrite Hmain. cbn [result snd]. split; [auto |].
    split; [discriminate |]. intros (_ & _ & cn & D & cands & Hc & _).
    destruct Hc as ((Hids & _) & _). congruence.
  - rewrite Hmain. cbn [result snd]. split; [auto |].
    split; [discriminate |]. intros (_ & _ & cn & D & cands & Hc & _).
    destruct Hc as ((_ & Hh & _) & _). congruence.
  - rewrite Hmain. split.
    + destruct (has_code err "not_authorized"); cbn [result snd]; [auto |].
      do 5 right. exists err. auto.
    + split; [destruct (has_code err "not_authorized"); discriminate |].
      intros (_ & _ & cn & D & cands & Hc & _).
      destruct Hc as ((_ & _ & Hs & _) & _). congruence.
  - rewrite Hmain. cbn [result snd]. split; [do 5 right; exists err; auto |].
    split; [discriminate |]. intros (_ & _ & cn' & D & cands & Hc & _).
    destruct Hc as ((_ & _ & Hs & Hl) & _). congruence.
  - rewrite Hmain. cbn [result snd]. split.
    + do 5 right. exists e. split; [reflexivity |]. right. right. left. eauto.
    + split; [discriminate |]. intros (_ & _ & cn' & D' & cands & Hc & _).
      destruct Hc as ((_ & _ & Hs & Hl) & als & Hprobe & _).
      destruct Hf as (_ & _ & Hs' & Hl').
      assert (D' = D) by congruence. subst D'.
      unfold probe_aliases in Hprobe.
      destruct (fan_out_rejects
                  (fun k depl => (CallGetAliases (conn_of ctx) (uid depl),
                                  getAliases w (conn_of ctx) k (uid depl)))
                  _ k d e Hk He) as [x Hx].
      congruence.
  - rewrite Hres. split; [auto |]. split; [discriminate |].
    intros (_ & _ & cn' & D' & cands' & Hc' & Hne').
    exfalso. apply Hne'. subst cands.
    destruct Hc as ((_ & _ & Hs & Hl) & als & Hp & Hfilter).
    destruct Hc' as ((_ & _ & Hs' & Hl') & als' & Hp' & Hfilter').
    assert (D' = D) by congruence. subst D'.
    assert (als' = als) by congruence. subst als'.
    rewrite Hfilter in Hfilter'. now injection Hfilter'.
  - rewrite Hres. split; [auto |]. split; [discriminate |].
    intros (_ & Hnone & _). destruct Hdecl as (_ & [d Hd] & _). congruence.
  - rewrite Hres. split; [do 4 right; left; auto |].
    split; [intros _ | reflexivity]. eauto 10.
  - destruct Hconf as (Hne & Hconf & _ & Hres). rewrite Hres.
    assert (Hno : ~ (opt_yes (parsed ctx) = false /\ stdin_data w = None /\
                     exists cn D cands, candidates w ctx cn D cands /\ cands <> [])).
    { intros (Hyes & Hnone & _). unfold confirmed, answer_of in Hconf.
      rewrite Hnone in Hconf.
      destruct Hconf as [Hy | [Hy | Hy]]; congruence. }
    destruct (result (batch_remove w (conn_of ctx) (opt_hard (parsed ctx)) cands))
      as [vs|x] eqn:Hbatch.
    + split; [auto |]. split; [discriminate | intros H; now destruct Hno].
    + unfold batch_remove in Hbatch.
      apply fan_out_inr in Hbatch as (k & d & e & -> & _ & He & _). cbn [snd] in He.
      split; [do 5 right; exists e; split; [reflexivity |]; do 3 right; eauto |].
      split; [discriminate | intros H; now destruct Hno].
Qed.

(** X1 holds of a run whose standard input is closed: the confirmation
    is asked for and never answered. *)
Lemma main_outcomes_witness :
  let w := with_stdin (Demo.world "yes") None in
  let ctx := Demo.args false false false ["b1"] in
  candidates w ctx "me" [Demo.app1; Demo.app2; Demo.blog]
    [set_aliases Demo.blog (Some [])] /\
  result (main Demo.plain w ctx) = inr Pending /\
  removals (trace (main Demo.plain w ctx)) = [].
Proof.
  intros w ctx.
  assert (Hc : candidates w ctx "me" [Demo.app1; Demo.app2; Demo.blog]
                 [set_aliases Demo.blog (Some [])]).
  { split; [unfold fetched; repeat split; [discriminate | reflexivity..] |].
    exists [[]]. split; reflexivity. }
  split; [exact Hc |].
  destruct (main_outcomes Demo.plain w ctx) as [Hways Hpending].
  assert (Hres : result (main Demo.plain w ctx) = inr Pending).
  { apply Hpending. split; [reflexivity | split; [reflexivity |]].
    exists "me", [Demo.app1; Demo.app2; Demo.blog], [set_aliases Demo.blog (Some [])].
    split; [exact Hc | discriminate]. }
  split; [exact Hres |].
  destruct Hways as [H | [H | [[H _] | [H | [(_ & Hrem & _) | (e & H & _)]]]]];
    [congruence.. | exact Hrem | congruence].
Defined.

(** X2: [main] issues no removal request unless the confirmation is
    skipped by the yes option or a chunk is read from standard input that
    is y or yes, in any mix of upper and lower case, between white space
    (that of Unicode, as [trim] removes it) and nothing else. *)
Theorem no_removal_without_confirmation (R : Render) (w : World) (ctx : Ctx)
    (u : string) :
  In u (removals (trace (main R w ctx))) ->
  confirmed w ctx /\
  (opt_yes (parsed ctx) = true \/
   exists chunk, stdin_data w = Some chunk /\ affirmative_input chunk).
Proof.
  destruct (main_removals R w ctx) as [-> | (cn & D & cands & _ & _ & Hconf & _)];
    [intros [] | intros _].
  split; [exact Hconf |].
  destruct (opt_yes (parsed ctx)) eqn:Hyes; [now left | right].
  destruct (confirmed_answer w ctx Hconf Hyes) as (chunk & Hchunk & Hans).
  exists chunk. split; [exact Hchunk |].
  apply affirmative_iff. unfold answer_of in Hans. rewrite Hchunk in Hans.
  apply orb_true_iff in Hans as [Hans | Hans];
    apply String.eqb_eq in Hans; auto.
Qed.

(** X2 holds of a run confirmed with Yes between a no-break space and a
    line feed. *)
Lemma no_removal_without_confirmation_witness :
  let chunk := Js.bytes [194; 160]%nat ++ "Yes" ++ Js.nl in
  let w := Demo.world chunk in
  let ctx := Demo.args false false false ["b1"] in
  In "b1" (removals (trace (main Demo.plain w ctx))) /\ confirmed w ctx /\
  affirmative_input chunk.
Proof.
  intros chunk w ctx.
  assert (Hin : In "b1" (removals (trace (main Demo.plain w ctx)))).
  { vm_compute. now left. }
  split; [exact Hin |].
  destruct (no_removal_without_confirmation Demo.plain w ctx "b1" Hin)
    as [Hconf [Hyes | (chunk' & Hchunk & Haff)]];
    [discriminate Hyes |].
  split; [exact Hconf |]. injection Hchunk as <-. exact Haff.
Defined.

(** X3: every uid for which [main] requests a removal is the uid of a
    deployment that [now.list] returned, that one of the identifiers
    selects (by uid, by name or by normalized url) and whose alias probe
    was fulfilled. *)
Theorem only_matches_are_removed (R : Render) (w : World) (ctx : Ctx)
    (u : string) :
  In u (removals (trace (main R w ctx))) ->
  exists D d,
    list_deployments w (conn_of ctx) = inl D /\ In d D /\ uid d = u /\
    (exists id, In id (ids_of ctx) /\
       (id = uid d \/ id = name d \/ url d = normalizeURL w id)) /\
    (exists i a, outcome (getAliases w (conn_of ctx) i u) = inl a).
Proof.
  destruct (main_removals R w ctx)
    as [-> | (cn & D & cands & Hc & _ & _ & -> & _)]; [intros [] |].
  intros (c & <- & Hcin)%in_map_iff.
  destruct (candidates_origin w ctx cn D cands Hc c Hcin)
    as (i & d & a & Hd & Hout & -> & _).
  assert (Hin : In d (resolve (normalizeURL w) D (ids_of ctx))).
  { apply list_elem_of_In, list_elem_of_lookup. eauto. }
  apply resolve_In in Hin as [HdD Hid].
  destruct Hc as ((_ & _ & _ & Hlist) & _).
  exists D, d. cbn [set_aliases uid]. repeat split; eauto.
Qed.

(** X3 holds of a run that removes the deployment named blog. *)
Lemma only_matches_are_removed_witness :
  let w := Demo.world "yes" in
  let ctx := Demo.args false true false ["blog"] in
  In "b1" (removals (trace (main Demo.plain w ctx))) /\
  exists D d, list_deployments w (conn_of ctx) = inl D /\ In d D /\ uid d = "b1".
Proof.
  intros w ctx.
  assert (Hin : In "b1" (removals (trace (main Demo.plain w ctx)))) by (now left).
  split; [exact Hin |].
  destruct (only_matches_are_removed Demo.plain w ctx "b1" Hin)
    as (D & d & HD & Hd & Hu & _).
  eauto.
Defined.

(** X4: in safe mode, every uid for which [main] requests a removal
    belongs to a match whose own alias probe, the one issued for it at
    its index, was fulfilled with the empty list. *)
Theorem safe_mode_spares_aliased (R : Render) (w : World) (ctx : Ctx)
    (u : string) :
  opt_safe (parsed ctx) = true ->
  In u (removals (trace (main R w ctx))) ->
  exists D i d,
    list_deployments w (conn_of ctx) = inl D /\
    resolve (normalizeURL w) D (ids_of ctx) !! i = Some d /\ uid d = u /\
    outcome (getAliases w (conn_of ctx) i u) = inl [].
Proof.
  intros Hsafe.
  destruct (main_removals R w ctx)
    as [-> | (cn & D & cands & Hc & _ & _ & -> & _)]; [intros [] |].
  intros (c & <- & Hcin)%in_map_iff.
  destruct (candidates_origin w ctx cn D cands Hc c Hcin)
    as (i & d & a & Hd & Hout & -> & Hempty).
  rewrite (Hempty Hsafe) in Hout.
  destruct Hc as ((_ & _ & _ & Hlist) & _).
  exists D, i, d. cbn [set_aliases uid]. auto.
Qed.

(** X4 holds of a run in safe mode on two deployments named app, of
    which only the unaliased one is removed. *)
Lemma safe_mode_spares_aliased_witness :
  let w := Demo.world "yes" in
  let ctx := Demo.args true true false ["app"] in
  opt_safe (parsed ctx) = true /\
  removals (trace (main Demo.plain w ctx)) = ["a1"] /\
  exists D i d,
    list_deployments w (conn_of ctx) = inl D /\
    resolve (normalizeURL w) D (ids_of ctx) !! i = Some d /\ uid d = "a1" /\
    outcome (getAliases w (conn_of ctx) i "a1") = inl [].
Proof.
  intros w ctx. split; [reflexivity | split; [reflexivity |]].
  apply (safe_mode_spares_aliased Demo.plain w ctx "a1" eq_refl). now left.
Defined.

(** ** Skipping the confirmation *)

Section SkipFacts.

Variable R : Render.
Variable w : World.

Lemma conclude_skipped_prompts argv ids now cn fs cands :
  opt_yes argv = true ->
  prompts (trace (conclude R w argv ids now cn fs cands)) = [].
Proof.
  intros Hyes. destruct cands as [|c cands]; [reflexivity |].
  destruct (conclude_nonempty R w argv ids now cn fs (c :: cands)) as [found ->];
    [discriminate |].
  rewrite Hyes. cbn [orb]. rewrite confirm_skipped.
  destruct (remove_all_run R w (opt_hard argv || false) now (c :: cands))
    as (_ & Hpr & _).
  repeat (rewrite ?bind_unfold; cbn [emit ret result trace fst snd]).
  rewrite !prompts_app, Hpr. reflexivity.
Qed.

End SkipFacts.

(** X5: with the yes option, [main] never prompts and does not depend on
    standard input: the run is the same whatever the input holds, and
    whether or not it holds anything. *)
Theorem yes_ignores_stdin (R : Render) (w : World) (ctx : Ctx)
    (s : option string) :
  opt_yes (parsed ctx) = true ->
  main R (with_stdin w s) ctx = main R w ctx /\
  prompts (trace (main R w ctx)) = [].
Proof.
  intros Hyes. split.
  - unfold main, conclude. cbv zeta. rewrite Hyes. reflexivity.
  - destruct (main_cases R w ctx)
      as [? -> | ? ? -> | err ? ? ? -> | cn err ? ? ? ? -> | cn D k d e ? ? ? ->
          | cn D cands Hc Htrace _]; try reflexivity.
    + now destruct (has_code err "not_authorized").
    + apply prompts_probed_trace.
    + rewrite Htrace, prompts_app, prompts_probed_trace.
      now apply conclude_skipped_prompts.
Qed.

(** X5 holds of two runs with the yes option that differ in the input. *)
Lemma yes_ignores_stdin_witness :
  let ctx := Demo.args false true false ["b1"] in
  opt_yes (parsed ctx) = true /\
  main Demo.plain (with_stdin (Demo.world "no") (Some "yes")) ctx
  = main Demo.plain (Demo.world "no") ctx.
Proof.
  intros ctx. split; [reflexivity |].
  apply (yes_ignores_stdin Demo.plain (Demo.world "no") ctx (Some "yes") eq_refl).
Defined.

(** ** Failures of [getScope] *)

(** X6: when [getScope] rejects, [main] has fetched nothing and fetches
    nothing: if the error has the code not_authorized, it prints the
    message of the error and returns 1; any other error is thrown as it
    is. Neither the spinner nor [now.list] is started. *)
Theorem scope_failure_short_circuits (R : Render) (w : World) (ctx : Ctx)
    (err : JsObject) :
  ids_of ctx <> [] -> help_requested (parsed ctx) (ids_of ctx) = false ->
  getScope w (conn_of ctx) = inr err ->
  (has_code err "not_authorized" = true ->
   main R w ctx
   = ([CallGetScope (conn_of ctx); OutputError (field err "message")], inl 1)) /\
  (has_code err "not_authorized" = false ->
   main R w ctx = ([CallGetScope (conn_of ctx)], inr (Thrown err))).
Proof.
  intros Hids Hhelp Hscope.
  rewrite (main_scope_failed R w ctx err Hids Hhelp Hscope).
  split; intros ->; reflexivity.
Qed.

(** X6 holds of a run in which the network is down. *)
Lemma scope_failure_short_circuits_witness :
  let w := {| normalizeURL := UrlSpec.normalizeURL;
              getScope := fun _ => inr Demo.network_down;
              list_deployments := fun _ => inl [Demo.app1];
              getAliases := fun _ k _ => Demo.fulfilled k [];
              remove := fun _ k _ _ => Demo.fulfilled k tt;
              stdin_data := Some "yes";
              clock := fun _ => 0 |} in
  let ctx := Demo.args false true false ["a1"] in
  getScope w (conn_of ctx) = inr Demo.network_down /\
  main Demo.plain w ctx = ([CallGetScope (conn_of ctx)], inr (Thrown Demo.network_down)).
Proof.
  intros w ctx. split; [reflexivity |].
  destruct (scope_failure_short_circuits Demo.plain w ctx Demo.network_down)
    as [_ Hother]; [discriminate | reflexivity | reflexivity |].
  apply Hother. reflexivity.
Defined.




(** ** The spinner *)

Lemma count_events_app p t1 t2 :
  count_events p (t1 ++ t2) = (count_events p t1 + count_events p t2)%nat.
Proof. unfold count_events. now rewrite List.filter_app, length_app. Qed.

Lemma count_events_none p t :
  Forall (fun ev => p ev = false) t -> count_events p t = 0%nat.
Proof.
  unfold count_events. induction 1 as [|ev t Hev _ IH]; [reflexivity |].
  cbn [List.filter]. now rewrite Hev.
Qed.

Lemma count_events_probe_calls p now (ms : list Deployment) :
  (forall u, p (CallGetAliases now u) = false) ->
  count_events p (map (fun d => CallGetAliases now (uid d)) ms) = 0%nat.
Proof.
  intros Hp. apply count_events_none. apply List.Forall_forall.
  intros ev (d & <- & _)%in_map_iff. apply Hp.
Qed.

(** X8: in every run of [main] the spinner is started at most once and
    each spinner that is started is cancelled: the trace has as many
    cancellations as starts, whether the run ends with a result, an
    exit or an exception of [now.list], of a probe or of a removal. *)
Theorem spinner_is_cancelled (R : Render) (w : World) (ctx : Ctx) :
  count_events is_wait_start (trace (main R w ctx))
  = count_events is_wait_cancel (trace (main R w ctx)) /\
  (count_events is_wait_start (trace (main R w ctx)) <= 1)%nat.
Proof.
  assert (Hprobed : forall cn ms,
            count_events is_wait_start (probed_trace R ctx cn ms) = 1%nat /\
            count_events is_wait_cancel (probed_trace R ctx cn ms) = 1%nat).
  { intros cn ms. unfold probed_trace.
    rewrite !count_events_app, !count_events_probe_calls by reflexivity.
    split; reflexivity. }
  destruct (main_cases R w ctx)
    as [? -> | ? ? -> | err ? ? ? -> | cn err ? ? ? ? -> | cn D k d e ? ? ? ->
        | cn D cands Hc Htrace _]; cbn [trace fst].
  - split; [reflexivity | cbn; lia].
  - split; [reflexivity | cbn; lia].
  - destruct (has_code err "not_authorized"); split; cbn; lia.
  - split; [reflexivity | cbn; lia].
  - destruct (Hprobed cn (resolve (normalizeURL w) D (ids_of ctx))) as [-> ->].
    split; [reflexivity | lia].
  - rewrite Htrace, !count_events_app.
    destruct (Hprobed cn (resolve (normalizeURL w) D (ids_of ctx))) as [-> ->].
    rewrite !count_events_none; [split; [reflexivity | lia] | |];
      apply conclude_events; reflexivity.
Qed.

(** ** The removal requests *)

(** X9: every removal request of a run of [main] goes through a client
    whose api url, token and team are those of the context and whose
    debug flag is the debug option, and carries the hard option as it was
    given; the listing, the alias probes and the closing go through a
    client with the same four settings. *)
Theorem removal_requests_carry_flags (R : Render) (w : World) (ctx : Ctx) :
  (forall now u h, In (CallRemove now u h) (trace (main R w ctx)) ->
     apiUrl now = ctx_apiUrl ctx /\ token now = ctx_token ctx /\
     debug now = opt_debug (parsed ctx) /\
     currentTeam now = ctx_currentTeam ctx /\
     h = opt_hard (parsed ctx)) /\
  (forall now,
     In (CallList now) (trace (main R w ctx)) \/
     (exists u, In (CallGetAliases now u) (trace (main R w ctx))) \/
     In (CallClose now) (trace (main R w ctx)) ->
     apiUrl now = ctx_apiUrl ctx /\ token now = ctx_token ctx /\
     debug now = opt_debug (parsed ctx) /\
     currentTeam now = ctx_currentTeam ctx).
Proof.
  pose (same := fun now : Conn =>
                  apiUrl now = ctx_apiUrl ctx /\ token now = ctx_token ctx /\
                  debug now = opt_debug (parsed ctx) /\
                  currentTeam now = ctx_currentTeam ctx).
  pose (P := fun ev =>
               match ev with
               | CallRemove now _ h => same now /\ h = opt_hard (parsed ctx)
               | CallGetAliases now _ => same now
               | CallList now => same now
               | CallClose now => same now
               | _ => True
               end).
  assert (HP : Forall P (trace (main R w ctx))).
  { apply main_events; cbn; unfold same; cbn; auto 10. }
  rewrite List.Forall_forall in HP.
  split.
  - intros now u h Hin. destruct (HP _ Hin) as [(? & ? & ? & ?) ?]. auto 10.
  - intros now [Hin | [[u Hin] | Hin]]; exact (HP _ Hin).
Qed.

(** ** The warnings of the confirmation *)

Lemma for_each_trace {A} (l : list A) (body : A -> M unit) :
  (forall x, In x l -> result (body x) = inl tt) ->
  trace (for_each l body) = flat_map (fun x => trace (body x)) l /\
  result (for_each l body) = inl tt.
Proof.
  induction l as [|x l IH]; intros Hbody; [now split |].
  destruct IH as [Ht Hr]; [intros y Hy; apply Hbody; now right |].
  cbn [for_each flat_map]. rewrite bind_unfold, (Hbody x (or_introl eq_refl)).
  cbn [trace result fst snd]. now rewrite Ht, Hr.
Qed.

Lemma alias_warnings_trace R depl (als : list Alias) :
  trace (for_each als (fun a => emit (alias_warning R depl a)))
  = map (alias_warning R depl) als.
Proof.
  induction als as [|a als IH]; [reflexivity |].
  cbn [for_each map]. rewrite bind_unfold. cbn [emit result trace fst snd].
  now rewrite IH.
Qed.

Lemma filter_warn_warnings R depl (als : list Alias) :
  List.filter is_warn (map (alias_warning R depl) als)
  = map (alias_warning R depl) als.
Proof. induction als as [|a als IH]; [reflexivity |]. cbn. now rewrite IH. Qed.

(** X10: when the alias list of every candidate is defined,
    [readConfirmation] prints, between the table and the prompt, one
    warning for each alias of each candidate, in the order of the
    candidates and of their aliases, and no other warning; so none at all
    when no candidate is aliased. *)
Theorem one_warning_per_alias (R : Render) (w : World) (cands : list Deployment) :
  (forall c, In c cands -> aliases c <> None) ->
  List.filter is_warn (trace (readConfirmation R w cands))
  = flat_map (fun c => map (alias_warning R c) (default [] (aliases c))) cands /\
  count_events is_warn (trace (readConfirmation R w cands))
  = list_sum (map (fun c => length (default [] (aliases c))) cands).
Proof.
  intros Hdef.
  assert (Hwarn : List.filter is_warn (trace (readConfirmation R w cands))
                  = flat_map (fun c => map (alias_warning R c)
                                         (default [] (aliases c))) cands).
  { unfold readConfirmation.
    match goal with |- context [for_each cands ?body] =>
      destruct (for_each_trace cands body) as [Ht Hr] end.
    { intros c Hc. destruct (aliases c) as [als|] eqn:Hals;
        [| now destruct (Hdef c Hc)].
      apply for_each_trace. reflexivity. }
    assert (Hend : List.filter is_warn
                     (trace (match stdin_data w with
                             | Some d => emit StdinPause >> ret (Js.trim d)
                             | None => pending
                             end)) = []) by now destruct (stdin_data w).
    repeat (rewrite ?bind_unfold, ?Hr; cbn [emit ret result trace fst snd]).
    rewrite Ht, !List.filter_app, Hend. cbn [List.filter is_warn app].
    rewrite app_nil_r. clear Ht Hr Hend.
    induction cands as [|c cands IH]; [reflexivity |].
    cbn [flat_map]. rewrite List.filter_app, IH by (intros; apply Hdef; now right).
    f_equal. cbv beta. destruct (aliases c) as [als|] eqn:Hals;
      [| now destruct (Hdef c (or_introl eq_refl))].
    cbn [default].
    change (List.filter is_warn
              (trace (for_each als (fun a => emit (alias_warning R c a))))
            = map (alias_warning R c) als).
    rewrite alias_warnings_trace. apply filter_warn_warnings. }
  split; [exact Hwarn |].
  unfold count_events. rewrite Hwarn. clear.
  induction cands as [|c cands IH]; [reflexivity |].
  cbn [flat_map map list_sum]. now rewrite length_app, length_map, IH.
Qed.

(** X10 holds of the two deployments named app, of which one has an
    alias. *)
Lemma one_warning_per_alias_witness :
  let cands := [ set_aliases Demo.app1 (Some []);
                 set_aliases Demo.app2 (Some [ {| alias := "app.com" |} ]) ] in
  (forall c, In c cands -> aliases c <> None) /\
  count_events is_warn (trace (readConfirmation Demo.plain (Demo.world "no") cands))
  = 1%nat.
Proof.
  intros cands.
  assert (Hdef : forall c, In c cands -> aliases c <> None).
  { intros c [<- | [<- | []]]; discriminate. }
  split; [exact Hdef |].
  destruct (one_warning_per_alias Demo.plain (Demo.world "no") cands Hdef) as [_ ->].
  reflexivity.
Defined.

(** ** [APIError] and the body of the response *)





(** ** Fetching a domain *)

Lemma has_status_APIError message response body n :
  Domains.has_status (Errors.APIError message response body) n
  = match body ≫= (fun b => b !! "status") with
    | Some (VNum s) => s =? n
    | Some _ => false
    | None => Errors.status response =? n
    end.
Proof.
  unfold Domains.has_status. rewrite APIError_lookup by discriminate.
  cbn -[pretty]. now destruct (body ≫= (fun b => b !! "status")) as [[]|].
Qed.

(** X13: [getDomainByName] starts the spinner and cancels it exactly
    once, whether the fetch of /v4/domains/ followed by the domain name
    succeeds or fails. It returns the payload of a successful fetch; it
    returns, and does not throw, a [DomainNotFound] for this domain when
    the error has status 404 and a [DomainPermissionDenied] for this
    domain and context when it has status 403; it rethrows any other
    error as it is. *)
Theorem getDomainByName_outcomes (R : Render) {Payload : Type}
    (fetch : string -> Payload + JsObject) (contextName domainName : string) :
  let m := Domains.getDomainByName R fetch contextName domainName in
  let answer := fetch ("/v4/domains/" ++ domainName) in
  trace m = [ WaitStart ("Fetching domains " ++ domainName ++ " under "
                         ++ bold R contextName);
              WaitCancel ] /\
  (forall p, answer = inl p -> result m = inl (inl p)) /\
  (forall e, answer = inr e -> Domains.has_status e 404 = true ->
     result m = inl (inr (Errors.DomainNotFound domainName))) /\
  (forall e, answer = inr e -> Domains.has_status e 404 = false ->
     Domains.has_status e 403 = true ->
     result m = inl (inr (Errors.DomainPermissionDenied domainName contextName))) /\
  (forall e, answer = inr e -> Domains.has_status e 404 = false ->
     Domains.has_status e 403 = false ->
     result m = inr (Thrown e)) /\
  field (Errors.DomainNotFound domainName) "meta" = VRecord [("domain", domainName)] /\
  field (Errors.DomainPermissionDenied domainName contextName) "meta"
  = VRecord [("domain", domainName); ("context", contextName)].
Proof.
  intros m answer. unfold m, Domains.getDomainByName. fold answer.
  destruct answer as [p|e]; cbn [await bind ret emit throw try_catch app trace result fst snd].
  - repeat split; intros; congruence.
  - destruct (Domains.has_status e 404) eqn:H404;
      [| destruct (Domains.has_status e 403) eqn:H403];
      cbn [await bind ret emit throw try_catch app trace result fst snd];
      repeat split; intros; congruence.
Qed.

(** X14: when the fetch of [getDomainByName] rejects with an [APIError],
    the status that decides is the one of the body of the response if it
    has a status field, and the HTTP status otherwise: without such a
    field a 404 response gives [DomainNotFound], a 403 response gives
    [DomainPermissionDenied], any other one is rethrown; a body whose
    status field is 404 gives [DomainNotFound] whatever the HTTP status. *)
Theorem getDomainByName_of_api_error (R : Render) {Payload : Type}
    (fetch : string -> Payload + JsObject) (contextName domainName : string)
    (message : string) (response : Errors.Response) (body : option JsObject) :
  fetch ("/v4/domains/" ++ domainName)
  = inr (Errors.APIError message response body) ->
  let m := Domains.getDomainByName R fetch contextName domainName in
  (body ≫= (fun b => b !! "status") = None ->
   result m
   = if Errors.status response =? 404
     then inl (inr (Errors.DomainNotFound domainName))
     else if Errors.status response =? 403
          then inl (inr (Errors.DomainPermissionDenied domainName contextName))
          else inr (Thrown (Errors.APIError message response body))) /\
  (body ≫= (fun b => b !! "status") = Some (VNum 404) ->
   result m = inl (inr (Errors.DomainNotFound domainName))).
Proof.
  intros Hfetch m. unfold m, Domains.getDomainByName. rewrite Hfetch.
  cbn [await bind ret emit throw try_catch app trace result fst snd].
  rewrite !has_status_APIError.
  split; intros ->.
  - destruct (Errors.status response =? 404); [reflexivity |].
    destruct (Errors.status response =? 403); reflexivity.
  - reflexivity.
Qed.

(** X14 holds of a 403 response without body. *)
Lemma getDomainByName_of_api_error_witness :
  let response := {| Errors.status := 403; Errors.headers_get := fun _ => None |} in
  let fetch : string -> unit + JsObject :=
    fun _ => inr (Errors.APIError "Forbidden" response None) in
  fetch ("/v4/domains/" ++ "zeit.rocks") = inr (Errors.APIError "Forbidden" response None) /\
  result (Domains.getDomainByName Demo.plain fetch "me" "zeit.rocks")
  = inl (inr (Errors.DomainPermissionDenied "zeit.rocks" "me")).
Proof.
  intros response fetch. split; [reflexivity |].
  destruct (getDomainByName_of_api_error Demo.plain fetch "me" "zeit.rocks"
              "Forbidden" response None eq_refl) as [Hhttp _].
  rewrite Hhttp; reflexivity.
Defined.

(** ** The maximum of a scale command *)

(** X15: [getMaxFromArgs] gives an error in three cases only. It gives
    back the [InvalidMinForScale] of [getRawMinFromArgs], whatever the
    other arguments are. It gives [InvalidArgsForMinMaxScale], with the
    minimum, exactly when [args[2]] is a valid value and there are more
    than four arguments. It gives [InvalidMaxForScale] exactly when
    [args[2]] is not a valid value, [args[3]] is present and not empty, and
    [args[4]] is present, not empty and not a valid value; the error then
    holds [args[4]]. *)
Theorem getMaxFromArgs_errors (MinError : Type) (isValid : option string -> bool)
    (toNumber : option string -> jsval) (rawMin : list string -> jsval + MinError)
    (args : list string) :
  let getMax := Scale.getMaxFromArgs MinError isValid toNumber rawMin in
  (forall e, getMax args = Scale.InvalidMinForScale e <-> rawMin args = inr e) /\
  (forall m, getMax args = Scale.InvalidArgsForMinMaxScale m <->
     rawMin args = inl m /\ isValid (args !! 2%nat) = true /\
     (4 < length args)%nat) /\
  (forall v, getMax args = Scale.InvalidMaxForScale v <->
     (exists m, rawMin args = inl m) /\
     isValid (args !! 2%nat) = false /\ Scale.truthy (args !! 3%nat) = true /\
     isValid (args !! 4%nat) = false /\
     args !! 4%nat = Some v /\ v <> EmptyString).
Proof.
  intros getMax. unfold getMax, Scale.getMaxFromArgs.
  destruct (rawMin args) as [min|e0].
  2:{ repeat split; try congruence; intros; try discriminate.
      - destruct H as (H & _). discriminate.
      - destruct H as ((m & H) & _). discriminate. }
  destruct (isValid (args !! 2%nat)) eqn:H2.
  - destruct (4 <? length args)%nat eqn:Hlen.
    + apply Nat.ltb_lt in Hlen.
      repeat split; try congruence; intros; try discriminate.
      * destruct H as (H & _). congruence.
      * destruct H as (_ & H & _). discriminate.
    + apply Nat.ltb_ge in Hlen.
      destruct (isValid (args !! 3%nat));
        repeat split; try congruence; intros; try discriminate;
        try (destruct H as (_ & _ & H); lia);
        try (destruct H as (_ & H & _); discriminate).
  - destruct (Scale.truthy (args !! 3%nat)) eqn:H3; cbn [negb].
    + destruct (isValid (args !! 4%nat)) eqn:H4.
      * repeat split; try congruence; intros; try discriminate;
          try (destruct H as (_ & H & _); discriminate).
        destruct H as (_ & _ & _ & H & _). discriminate.
      * destruct (args !! 4%nat) as [[|c s]|] eqn:Ha4;
          repeat split; try congruence; intros; try discriminate;
          try (destruct H as (_ & H & _); discriminate);
          try (destruct H as (_ & _ & _ & _ & H & Hne); congruence);
          eauto.
    + repeat split; try congruence; intros; try discriminate;
        try (destruct H as (_ & H & _); discriminate).
      destruct H as (_ & _ & H & _). discriminate.
Qed.

(** X15 holds of a scale command with a max that is not a number. *)
Lemma getMaxFromArgs_errors_witness :
  let args := ["scale"; "app.now.sh"; "sfo"; "1"; "many"] in
  Scale.getMaxFromArgs string ScaleDemo.isValid ScaleDemo.toNumber ScaleDemo.rawMin args
  = Scale.InvalidMaxForScale "many" /\
  Scale.getMaxFromArgs string ScaleDemo.isValid ScaleDemo.toNumber ScaleDemo.rawMin
    ["scale"; "app.now.sh"; "1"; "2"; "3"]
  = Scale.InvalidArgsForMinMaxScale (VNum 1).
Proof.
  intros args.
  destruct (getMaxFromArgs_errors string ScaleDemo.isValid ScaleDemo.toNumber
              ScaleDemo.rawMin args) as (_ & _ & Hmax).
  destruct (getMaxFromArgs_errors string ScaleDemo.isValid ScaleDemo.toNumber
              ScaleDemo.rawMin ["scale"; "app.now.sh"; "1"; "2"; "3"])
    as (_ & Hargs & _).
  split.
  - apply Hmax. repeat split; try reflexivity; [eexists; reflexivity | discriminate].
  - apply Hargs. repeat split. cbn. lia.
Defined.

(** X16: a value that [getMaxFromArgs] returns is the minimum of
    [getRawMinFromArgs], or [AUTO], or [toNumberOrAuto] of [args[3]] or
    [args[4]], and then [isValidMinMaxValue] accepts that argument. When
    [args[2]] is a valid value and there are at most four arguments, an
    [args[3]] that is not valid is not reported: the maximum is the
    minimum. When [args[2]] is not a valid value and [args[3]] is absent or
    empty, the maximum is [AUTO]. *)
Theorem getMaxFromArgs_values (MinError : Type) (isValid : option string -> bool)
    (toNumber : option string -> jsval) (rawMin : list string -> jsval + MinError)
    (args : list string) :
  let getMax := Scale.getMaxFromArgs MinError isValid toNumber rawMin in
  (forall v, getMax args = Scale.Value v ->
     rawMin args = inl v \/ v = Scale.AUTO \/
     exists k, (k = 3%nat \/ k = 4%nat) /\ isValid (args !! k) = true /\
               v = toNumber (args !! k)) /\
  (forall min, rawMin args = inl min -> isValid (args !! 2%nat) = true ->
     (length args <= 4)%nat -> isValid (args !! 3%nat) = false ->
     getMax args = Scale.Value min) /\
  (forall min, rawMin args = inl min -> isValid (args !! 2%nat) = false ->
     Scale.truthy (args !! 3%nat) = false ->
     getMax args = Scale.Value Scale.AUTO).
Proof.
  intros getMax. unfold getMax, Scale.getMaxFromArgs.
  split; [| split].
  - intros v.
    destruct (rawMin args) as [min|e0]; [| discriminate].
    destruct (isValid (args !! 2%nat)).
    + destruct (4 <? length args)%nat; [discriminate |].
      destruct (isValid (args !! 3%nat)) eqn:H3; intros [= <-]; [| now left].
      right. right. exists 3%nat. auto.
    + destruct (Scale.truthy (args !! 3%nat)); cbn [negb];
        [| intros [= <-]; right; now left].
      destruct (isValid (args !! 4%nat)) eqn:H4.
      * intros [= <-]. right. right. exists 4%nat. auto.
      * destruct (args !! 4%nat) as [[|c s]|]; try discriminate;
          intros [= <-]; now left.
  - intros min -> -> Hlen ->.
    apply Nat.ltb_ge in Hlen. now rewrite Hlen.
  - intros min -> -> ->. reflexivity.
Qed.

(** X16 holds of a scale command whose fourth argument is not a number. *)
Lemma getMaxFromArgs_values_witness :
  let args := ["scale"; "app.now.sh"; "2"; "many"] in
  ScaleDemo.rawMin args = inl (VNum 2) /\
  ScaleDemo.isValid (args !! 3%nat) = false /\
  Scale.getMaxFromArgs string ScaleDemo.isValid ScaleDemo.toNumber ScaleDemo.rawMin args
  = Scale.Value (VNum 2).
Proof.
  intros args. split; [reflexivity | split; [reflexivity |]].
  destruct (getMaxFromArgs_values string ScaleDemo.isValid ScaleDemo.toNumber
              ScaleDemo.rawMin args) as (_ & Hmin & _).
  apply Hmin; reflexivity.
Defined.

(** X13 holds of a fetch that fails with status 404. *)
Lemma getDomainByName_outcomes_witness :
  let e : JsObject := {[ "status" := VNum 404 ]} in
  let fetch : string -> unit + JsObject := fun _ => inr e in
  Domains.has_status e 404 = true /\
  result (Domains.getDomainByName Demo.plain fetch "me" "zeit.rocks")
  = inl (inr (Errors.DomainNotFound "zeit.rocks")).
Proof.
  intros e fetch. split; [reflexivity |].
  destruct (getDomainByName_outcomes Demo.plain fetch "me" "zeit.rocks")
    as (_ & _ & H404 & _).
  apply (H404 e); reflexivity.
Defined.

(** X9 holds of a run with the hard option. *)
Lemma removal_requests_carry_flags_witness :
  let w := Demo.world "yes" in
  let ctx :=
    {| parsed := {| opt_help := false; opt_debug := true; opt_hard := true;
                    opt_yes := true; opt_safe := false;
                    positional := ["rm"; "b1"] |};
       ctx_apiUrl := "https://api.zeit.co"; ctx_token := "t0k3n";
       ctx_currentTeam := Some "acme" |} in
  let now := {| apiUrl := "https://api.zeit.co"; token := "t0k3n";
                debug := true; currentTeam := Some "acme" |} in
  In (CallRemove now "b1" true) (trace (main Demo.plain w ctx)) /\
  token now = ctx_token ctx /\ opt_hard (parsed ctx) = true.
Proof.
  intros w ctx now.
  assert (Hin : In (CallRemove now "b1" true) (trace (main Demo.plain w ctx))).
  { cbn. repeat (first [left; reflexivity | right]). }
  split; [exact Hin |].
  destruct (removal_requests_carry_flags Demo.plain w ctx) as [Hrem _].
  destruct (Hrem _ _ _ Hin) as (_ & Htok & _ & _ & Hhard).
  split; [exact Htok | now rewrite <- Hhard].
Defined.

(** ** More on the resolver and the probes *)

Lemma existsb_same_members {A} (f : A -> bool) (l l' : list A) :
  (forall x, In x l <-> In x l') -> existsb f l = existsb f l'.
Proof.
  intros Hsame.
  destruct (existsb f l) eqn:Hl, (existsb f l') eqn:Hl'; try reflexivity.
  - apply existsb_exists in Hl as (x & Hx & Hf).
    assert (existsb f l' = true); [| congruence].
    apply existsb_exists. exists x. split; [now apply Hsame | exact Hf].
  - apply existsb_exists in Hl' as (x & Hx & Hf).
    assert (existsb f l = true); [| congruence].
    apply existsb_exists. exists x. split; [now apply Hsame | exact Hf].
Qed.

(** X17: the resolver depends on the identifiers as a set only: two
    identifier lists with the same members, in any order and with any
    repetition, select the same deployments; and resolving the result
    again selects all of it. *)
Theorem resolve_identifier_set (normalize : string -> string)
    (D : list Deployment) (I I' : list string) :
  (forall i, In i I <-> In i I') ->
  resolve normalize D I = resolve normalize D I' /\
  resolve normalize (resolve normalize D I) I' = resolve normalize D I.
Proof.
  intros Hsame.
  assert (Heq : resolve normalize D I = resolve normalize D I').
  { unfold resolve. apply List.filter_ext. intros d.
    now apply existsb_same_members. }
  split; [exact Heq |].
  rewrite Heq. clear Heq. unfold resolve.
  induction D as [|d D IH]; [reflexivity |].
  cbn [List.filter].
  destruct (existsb (matches_id normalize d) I') eqn:Hd; [| exact IH].
  cbn [List.filter]. now rewrite Hd, IH.
Qed.

(** X17 holds of two identifiers given in the two orders, one of them
    twice. *)
Lemma resolve_identifier_set_witness :
  let D := [Demo.app1; Demo.app2; Demo.blog] in
  (forall i, In i ["blog"; "a1"] <-> In i ["a1"; "blog"; "a1"]) /\
  resolve UrlSpec.normalizeURL D ["blog"; "a1"]
  = resolve UrlSpec.normalizeURL D ["a1"; "blog"; "a1"].
Proof.
  intros D.
  assert (Hsame : forall i, In i ["blog"; "a1"] <-> In i ["a1"; "blog"; "a1"]).
  { intros i. cbn. tauto. }
  split; [exact Hsame |].
  apply (resolve_identifier_set UrlSpec.normalizeURL D _ _ Hsame).
Defined.

Lemma probe_calls_app (t1 t2 : list Event) :
  probe_calls (t1 ++ t2) = (probe_calls t1 ++ probe_calls t2)%list.
Proof. apply flat_map_app. Qed.

Lemma probe_calls_probe_calls now (ms : list Deployment) :
  probe_calls (map (fun d => CallGetAliases now (uid d)) ms) = map uid ms.
Proof.
  induction ms as [|m ms IH]; [reflexivity |].
  cbn [map probe_calls flat_map app]. fold (probe_calls
    (map (fun d => CallGetAliases now (uid d)) ms)). now rewrite IH.
Qed.

Lemma probe_calls_probed_trace R ctx cn ms :
  probe_calls (probed_trace R ctx cn ms) = map uid ms.
Proof.
  unfold probed_trace. rewrite !probe_calls_app, probe_calls_probe_calls.
  cbn [probe_calls flat_map app]. now rewrite app_nil_r.
Qed.

Lemma probe_calls_none (t : list Event) :
  Forall (fun ev => match ev with CallGetAliases _ _ => False | _ => True end) t ->
  probe_calls t = [].
Proof.
  induction 1 as [|ev t Hev _ IH]; [reflexivity |].
  cbn [probe_calls flat_map]. fold (probe_calls t). rewrite IH.
  now destruct ev.
Qed.

(** X18: in every run of [main] in which the scope and the deployments
    are fetched, one alias probe is issued for each matched deployment,
    in the order of the matches and for nothing else, whether or not safe
    mode is on, whether or not the confirmation is skipped and whatever
    the probes and the removals settle to. *)
Theorem one_probe_per_match (R : Render) (w : World) (ctx : Ctx) (cn : string)
    (D : list Deployment) :
  fetched w ctx cn D ->
  probe_calls (trace (main R w ctx))
  = map uid (resolve (normalizeURL w) D (ids_of ctx)).
Proof.
  intros Hfetched. pose proof Hfetched as (Hids & Hhelp & Hscope & Hlist).
  destruct (main_cases R w ctx)
    as [? _ | ? ? _ | err ? ? ? _ | cn' err ? ? ? ? _ | cn' D' k d e Hf ? ? ->
        | cn' D' cands Hc Htrace _]; try congruence.
  - destruct Hf as (_ & _ & Hscope' & Hlist').
    assert (D' = D) as -> by congruence.
    cbn [trace fst]. apply probe_calls_probed_trace.
  - destruct Hc as ((_ & _ & Hscope' & Hlist') & _).
    assert (D' = D) as -> by congruence.
    rewrite Htrace, probe_calls_app, probe_calls_probed_trace.
    rewrite (probe_calls_none (trace (conclude _ _ _ _ _ _ _ _))), app_nil_r;
      [reflexivity |].
    apply conclude_events; intros; exact I.
Qed.

(** X18 holds of a run without safe mode that is declined. *)
Lemma one_probe_per_match_witness :
  let w := Demo.world "no" in
  let ctx := Demo.args false false false ["app"] in
  fetched w ctx "me" [Demo.app1; Demo.app2; Demo.blog] /\
  probe_calls (trace (main Demo.plain w ctx)) = ["a1"; "a2"].
Proof.
  intros w ctx.
  assert (Hfetched : fetched w ctx "me" [Demo.app1; Demo.app2; Demo.blog]).
  { unfold fetched. repeat split; [discriminate | reflexivity..]. }
  split; [exact Hfetched |].
  rewrite (one_probe_per_match Demo.plain w ctx "me" _ Hfetched). reflexivity.
Defined.
